(** * Schema derivation of the swag package: model and properties

    The development follows the Go sources: package [types] (the scalar and
    format classifiers with their override registry) and [reflect.go] of
    package [swag] (property inspector, field enumerator, object definer and
    graph closure builder).  Go's [reflect.Type] values are handles into the
    run-time type table of the program; the table is modelled as a function
    from handles to descriptors, so that recursive types (a record holding a
    pointer to, a slice of or a map of itself) are ordinary inhabitants.

    Recursive Go functions whose recursion follows the type table take a
    bound on the depth of the call stack; a call that would exceed it yields
    [OutOfFuel], a Go panic yields [Panic]. *)

From Stdlib Require Import Ascii String.
From stdpp Require Import base option gmap strings list fin_maps fin_sets.

#[local] Open Scope string_scope.
#[local] Set Warnings "-register-all,-clear-no-such-hyp".

(** ** Outcome of a Go call *)

Inductive result (A : Type) : Type :=
| Ok (a : A)
| Panic
| OutOfFuel.
Arguments Ok {A} a.
Arguments Panic {A}.
Arguments OutOfFuel {A}.

#[global] Instance result_ret : MRet result := fun _ a => Ok a.
#[global] Instance result_bind : MBind result := fun _ _ f r =>
  match r with
  | Ok a => f a
  | Panic => Panic
  | OutOfFuel => OutOfFuel
  end.

Definition returns {A} (r : result A) : Prop := ∃ a, r = Ok a.

(** ** The string functions of Go's [strings] package that the code calls

    Go strings are byte sequences, as are Rocq's. *)

Module strings.

Definition isUpper (c : ascii) : bool :=
  let n := nat_of_ascii c in ((65 <=? n) && (n <=? 90))%nat.

Definition isASCII (c : ascii) : bool := (nat_of_ascii c <? 128)%nat.

(** U+FFFD in UTF-8, what [strings.Map] writes for a byte that is not valid
    UTF-8. *)
Definition runeError : string :=
  String (ascii_of_nat 239) (String (ascii_of_nat 191) (String (ascii_of_nat 189) "")).

(** [strings.ToLower] on ASCII text and on lone bytes (the code applies it to
    the one-byte slice [field.Name[0:1]]): an ASCII capital is lowered, other
    ASCII bytes are kept, and a byte from 0x80 on, which alone is not valid
    UTF-8, comes out as U+FFFD. *)
Fixpoint ToLower (s : string) : string :=
  match s with
  | "" => ""
  | String c s' =>
      if isASCII c then
        String (if isUpper c then ascii_of_nat (nat_of_ascii c + 32) else c) (ToLower s')
      else runeError +:+ ToLower s'
  end.

(** The white space of [strings.TrimSpace] is that of [unicode.IsSpace].
    Within ASCII: tab, line feed, vertical tab, form feed, carriage return
    and space. *)
Definition isSpace (c : ascii) : bool :=
  let n := nat_of_ascii c in (((9 <=? n) && (n <=? 13)) || (n =? 32))%nat.

(** In two bytes of UTF-8: U+0085 ([C2 85]) and U+00A0 ([C2 A0]). *)
Definition isSpace2 (c1 c2 : ascii) : bool :=
  let n1 := nat_of_ascii c1 in
  let n2 := nat_of_ascii c2 in
  ((n1 =? 194) && ((n2 =? 133) || (n2 =? 160)))%nat.

(** In three bytes: U+1680 ([E1 9A 80]), U+2000 to U+200A ([E2 80 80] to
    [E2 80 8A]), U+2028, U+2029 and U+202F ([E2 80 A8], [E2 80 A9],
    [E2 80 AF]), U+205F ([E2 81 9F]) and U+3000 ([E3 80 80]). *)
Definition isSpace3 (c1 c2 c3 : ascii) : bool :=
  let n1 := nat_of_ascii c1 in
  let n2 := nat_of_ascii c2 in
  let n3 := nat_of_ascii c3 in
  (((n1 =? 225) && (n2 =? 154) && (n3 =? 128)) ||
   ((n1 =? 226) && (n2 =? 128) &&
    (((128 <=? n3) && (n3 <=? 138)) || (n3 =? 168) || (n3 =? 169) || (n3 =? 175))) ||
   ((n1 =? 226) && (n2 =? 129) && (n3 =? 159)) ||
   ((n1 =? 227) && (n2 =? 128) && (n3 =? 128)))%nat.

(** [s] is the UTF-8 encoding of one white-space rune.  The decoder of Go
    accepts the shortest encoding of a rune only and reads a byte that begins
    no valid encoding as U+FFFD, which is not white space: so a string
    begins, or ends, with a white-space rune exactly when it begins, or ends,
    with one of these encodings. *)
Definition isSpaceRune (s : string) : bool :=
  match s with
  | String c "" => isSpace c
  | String c1 (String c2 "") => isSpace2 c1 c2
  | String c1 (String c2 (String c3 "")) => isSpace3 c1 c2 c3
  | _ => false
  end.

(** [strings.TrimLeftFunc(s, unicode.IsSpace)] *)
Fixpoint TrimLeft (s : string) : string :=
  match s with
  | "" => ""
  | String c1 s1 =>
      if isSpace c1 then TrimLeft s1
      else
        match s1 with
        | "" => s
        | String c2 s2 =>
            if isSpace2 c1 c2 then TrimLeft s2
            else
              match s2 with
              | "" => s
              | String c3 s3 => if isSpace3 c1 c2 c3 then TrimLeft s3 else s
              end
        end
  end.

(** [strings.TrimRightFunc(s, unicode.IsSpace)]: with the tail trimmed, the
    first byte goes as well where it and what is left of the tail are one
    white-space rune. *)
Fixpoint TrimRight (s : string) : string :=
  match s with
  | "" => ""
  | String c s' =>
      let r := String c (TrimRight s') in
      if isSpaceRune r then "" else r
  end.

(** [strings.TrimSpace(s)]: the white space at the two ends removed, the
    left end first. *)
Definition TrimSpace (s : string) : string := TrimRight (TrimLeft s).

Definition HasPrefix (s prefix : string) : bool := String.prefix prefix s.

Fixpoint Contains (s substr : string) : bool :=
  String.prefix substr s ||
  match s with
  | "" => false
  | String _ s' => Contains s' substr
  end.

(** [strings.Split(s, sep)] for a one-byte separator: never empty, and
    [Split("", sep)] is the one-element slice holding the empty string. *)
Fixpoint Split (s : string) (sep : ascii) : list string :=
  match s with
  | "" => [""]
  | String c s' =>
      if bool_decide (c = sep) then "" :: Split s' sep
      else match Split s' sep with
           | h :: t => String c h :: t
           | [] => [String c ""]
           end
  end.

End strings.

(** [s[0:1]]: the first byte as a string; out of range on the empty string. *)
Definition slice01 (s : string) : result string :=
  match s with
  | "" => Panic
  | String c _ => Ok (String c "")
  end.

(** [parts[0]] *)
Definition index0 (parts : list string) : result string :=
  match parts with
  | [] => Panic
  | p :: _ => Ok p
  end.

Definition comma : ascii := ascii_of_nat 44.

(** ** Go's reflection model *)

Module reflect.

Inductive Kind : Set :=
| Invalid | Bool
| Int | Int8 | Int16 | Int32 | Int64
| Uint | Uint8 | Uint16 | Uint32 | Uint64 | Uintptr
| Float32 | Float64 | Complex64 | Complex128
| Array | Chan | Func | Interface | Map | Ptr | Slice | String | Struct
| UnsafePointer.

#[global] Instance Kind_eq_dec : EqDecision Kind.
Proof. solve_decision. Defined.

(** [Kind.String()] *)
Definition Kind_String (k : Kind) : string :=
  match k with
  | Invalid => "invalid" | Bool => "bool"
  | Int => "int" | Int8 => "int8" | Int16 => "int16" | Int32 => "int32" | Int64 => "int64"
  | Uint => "uint" | Uint8 => "uint8" | Uint16 => "uint16" | Uint32 => "uint32"
  | Uint64 => "uint64" | Uintptr => "uintptr"
  | Float32 => "float32" | Float64 => "float64"
  | Complex64 => "complex64" | Complex128 => "complex128"
  | Array => "array" | Chan => "chan" | Func => "func" | Interface => "interface"
  | Map => "map" | Ptr => "ptr" | Slice => "slice" | String => "string"
  | Struct => "struct" | UnsafePointer => "unsafe.Pointer"
  end.

(** A [reflect.Type] value is a handle into the type table. *)
Definition Type_ : Set := nat.

(** A struct tag, already split into its [key:"value"] pairs, in order. *)
Definition StructTag : Type := list (string * string).

Fixpoint Lookup (tag : StructTag) (key : string) : option string :=
  match tag with
  | [] => None
  | (k, v) :: tag' => if bool_decide (k = key) then Some v else Lookup tag' key
  end.

Definition Get (tag : StructTag) (key : string) : string :=
  default "" (Lookup tag key).

Record StructField : Type := mkField {
  Name : string;
  FType : Type_;          (* the field's [Type] *)
  Tag : StructTag;
  Anonymous : bool
}.

(** What the run-time keeps for one type: its kind, its [String()], the
    element type of a pointer, array, slice, map or channel, and the fields of
    a struct. *)
Record rtype : Type := mkRtype {
  rkind : Kind;
  rstring : string;
  relem : Type_;
  rfields : list StructField
}.

(** The type table of the running program. *)
Definition Universe : Type := Type_ → rtype.

Section Methods.
Context (U : Universe).

Definition kind (t : Type_) : Kind := rkind (U t).
Definition String_ (t : Type_) : string := rstring (U t).

(** [t.Elem()] panics unless the kind has an element type. *)
Definition Elem (t : Type_) : result Type_ :=
  match kind t with
  | Array | Chan | Map | Ptr | Slice => Ok (relem (U t))
  | _ => Panic
  end.

(** [t.NumField()] and [t.Field(i)] panic unless the kind is [Struct]; the
    loop [for i := 0; i < t.NumField(); i++ { field := t.Field(i) ... }]
    sees the fields in declaration order. *)
Definition Fields (t : Type_) : result (list StructField) :=
  match kind t with
  | Struct => Ok (rfields (U t))
  | _ => Panic
  end.
End Methods.

End reflect.

(** ** Package [types]: scalar kinds, formats and the override registry *)

Module types.

Definition ParameterType : Type := string.

(** Modelled from the spec: the constant block of [ParameterType] is not
    among the sources.  The names are the spec's kinds (boolean, integer,
    number, string, array, object, unknown).  [Unknown] is the zero value of
    the string type: [Get] returns the zero value for a name that is not
    registered and [Parse] compares it with [Unknown], and the package's
    tests ([TestParse]) expect [Array] for [*[]int] and [Unknown] for a
    channel. *)
Definition Unknown : ParameterType := "".
Definition Integer : ParameterType := "integer".
Definition Number : ParameterType := "number".
Definition Boolean : ParameterType := "boolean".
Definition String : ParameterType := "string".
Definition Array : ParameterType := "array".
Definition Object : ParameterType := "object".

Definition Format : Type := string.

Definition FormatNone : Format := "".
Definition FormatInt32 : Format := "int32".
Definition FormatInt64 : Format := "int64".
Definition FormatDouble : Format := "double".
Definition FormatFloat : Format := "float".

(** The process-wide [ptMapping], passed explicitly. *)
Abbreviation Registry := (gmap string ParameterType).

Definition ptMapping : Registry :=
  {[ "time.Time" := "string"; "time.Duration" := "integer"; "json.Number" := "number" ]}.

Definition Register (reg : Registry) (goType : string) (pt : ParameterType) : Registry :=
  <[goType := pt]> reg.

(** Indexing a Go map with a missing key gives the zero value. *)
Definition Get (reg : Registry) (goType : string) : ParameterType :=
  default "" (reg !! goType).

Section Classifiers.
Context (U : reflect.Universe).

Fixpoint Parse (reg : Registry) (fuel : nat) (t : reflect.Type_) : result ParameterType :=
  match fuel with
  | 0 => OutOfFuel
  | S fuel =>
      let kind := reflect.kind U t in
      if bool_decide (kind = reflect.Ptr) then
        e ← reflect.Elem U t; Parse reg fuel e
      else
        let pt := Get reg (reflect.String_ U t) in
        if bool_decide (pt ≠ Unknown) then Ok pt
        else
          match kind with
          | reflect.Bool => Ok Boolean
          | reflect.Float32 | reflect.Float64 => Ok Number
          | reflect.Int | reflect.Int8 | reflect.Int16 | reflect.Int32 | reflect.Int64
          | reflect.Uint | reflect.Uint8 | reflect.Uint16 | reflect.Uint32
          | reflect.Uint64 => Ok Integer
          | reflect.String => Ok String
          | reflect.Array | reflect.Slice => Ok Array
          | reflect.Struct | reflect.Map => Ok Object
          | _ => Ok Unknown
          end
  end.

Fixpoint ParseFormat (fuel : nat) (t : reflect.Type_) : result Format :=
  match fuel with
  | 0 => OutOfFuel
  | S fuel =>
      let kind := reflect.kind U t in
      if bool_decide (kind = reflect.Ptr) then
        e ← reflect.Elem U t; ParseFormat fuel e
      else
        match kind with
        | reflect.Int | reflect.Int8 | reflect.Int16 | reflect.Int32
        | reflect.Uint8 | reflect.Uint16 | reflect.Uint32 => Ok FormatInt32
        | reflect.Int64 | reflect.Uint64 => Ok FormatInt64
        | reflect.Float64 => Ok FormatDouble
        | reflect.Float32 => Ok FormatFloat
        | _ => Ok FormatNone
        end
  end.
End Classifiers.

End types.

(** ** Package [swag]: properties and objects *)

Module Property.
Inductive t : Type := mk {
  GoType : reflect.Type_;
  Type_ : string;
  Format : string;
  Ref : string;
  Example : string;
  Description : string;
  Enum : list string;
  Items : option t;
  AdditionalProperties : option t
}.
End Property.
Abbreviation Property := Property.t.

Module Object.
Record t : Type := mk {
  Name : string;
  Type_ : string;
  Format : string;
  Required : list string;
  Properties : gmap string Property;
  Items : option Property;
  AdditionalProperties : option Property
}.
End Object.
Abbreviation Object := Object.t.

Abbreviation Graph := (gmap string Object).

Section Swag.
Context (U : reflect.Universe) (reg : types.Registry).

(** [makeName] and [makeRef] are helpers of the package that are not among
    the sources; they are parameters of the model. *)
Context (makeName : reflect.Type_ → string) (makeRef : string → string).

Fixpoint inspect (fuel : nat) (t : reflect.Type_) : result Property :=
  match fuel with
  | 0 => OutOfFuel
  | S fuel =>
      (* unwrap pointer *)
      if bool_decide (reflect.kind U t = reflect.Ptr) then
        e ← reflect.Elem U t; inspect fuel e
      else
        type ← types.Parse U reg fuel t;
        format ← types.ParseFormat U fuel t;
        match reflect.kind U t with
        | reflect.Struct =>
            let name := makeName t in
            Ok (Property.mk t "" format (makeRef name) "" "" [] None None)
        | reflect.Map =>
            e ← reflect.Elem U t;
            ap ← inspect fuel e;
            Ok (Property.mk t type format "" "" "" [] None (Some ap))
        | reflect.Slice | reflect.Array =>
            (* unwrap array or slice *)
            e ← reflect.Elem U t;
            items ← inspect fuel e;
            Ok (Property.mk e type format "" "" "" [] (Some items) None)
        | _ => Ok (Property.mk t type format "" "" "" [] None None)
        end
  end.

(** The metadata overlays of [buildProperty], in the order of the code. *)
Definition setExample (tag : reflect.StructTag) (p : Property) : Property :=
  let example := reflect.Get tag "example" in
  if bool_decide (example ≠ "") then
    Property.mk (Property.GoType p) (Property.Type_ p) (Property.Format p) (Property.Ref p)
      example (Property.Description p) (Property.Enum p)
      (Property.Items p) (Property.AdditionalProperties p)
  else p.

Definition setDescription (description : string) (p : Property) : Property :=
  if bool_decide (description ≠ "") then
    Property.mk (Property.GoType p) (Property.Type_ p) (Property.Format p) (Property.Ref p)
      (Property.Example p) description (Property.Enum p)
      (Property.Items p) (Property.AdditionalProperties p)
  else p.

Definition setEnum (tag : reflect.StructTag) (p : Property) : Property :=
  let enum := reflect.Get tag "enum" in
  if bool_decide (enum ≠ "") then
    Property.mk (Property.GoType p) (Property.Type_ p) (Property.Format p) (Property.Ref p)
      (Property.Example p) (Property.Description p) (strings.Split enum comma)
      (Property.Items p) (Property.AdditionalProperties p)
  else p.

(** The name under which a field that is neither skipped nor embedded is
    filed: lines 72 to 83 of [buildProperty]. *)
Definition jsonName (field : reflect.StructField) : result string :=
  let name := strings.TrimSpace (reflect.Get (reflect.Tag field) "json") in
  name ← (if bool_decide (name = "") || strings.HasPrefix name ","
          then Ok (reflect.Name field)
          else
            (* strip out things like , omitempty *)
            index0 (strings.Split name comma));
  index0 (strings.Split name comma).

(** One turn of the loop over the fields in [buildProperty]; [recur] is the
    recursive call.  The state is the pair [(properties, required)]. *)
Definition buildField (fuel : nat)
    (recur : reflect.Type_ → result (gmap string Property * list string))
    (field : reflect.StructField)
    (st : gmap string Property * list string)
    : result (gmap string Property * list string) :=
  let '(properties, required) := st in
  (* skip unexported fields *)
  first ← slice01 (reflect.Name field);
  if bool_decide (strings.ToLower first = first) then Ok (properties, required)
  else if reflect.Anonymous field then
    '(ps, _) ← recur (reflect.FType field);
    (* for name, p := range ps { properties[name] = p } *)
    Ok (ps ∪ properties, required)
  else
    name ← jsonName field;
    if bool_decide (name = "-") then Ok (properties, required)
    else
      let jsonTag := reflect.Get (reflect.Tag field) "json" in
      p ← (if strings.Contains jsonTag ",string"
           then Ok (Property.mk (reflect.FType field) types.String "" "" "" "" [] None None)
           else inspect fuel (reflect.FType field));
      let required :=
        match reflect.Lookup (reflect.Tag field) "required" with
        | Some _ => (required ++ [name])%list
        | None => required
        end in
      let p := setExample (reflect.Tag field) p in
      let p := setDescription (reflect.Get (reflect.Tag field) "description") p in
      let p := setDescription (reflect.Get (reflect.Tag field) "desc") p in
      let p := setEnum (reflect.Tag field) p in
      Ok (<[name := p]> properties, required).

Fixpoint buildFields (fuel : nat)
    (recur : reflect.Type_ → result (gmap string Property * list string))
    (fields : list reflect.StructField)
    (st : gmap string Property * list string)
    : result (gmap string Property * list string) :=
  match fields with
  | [] => Ok st
  | field :: fields => st' ← buildField fuel recur field st; buildFields fuel recur fields st'
  end.

Fixpoint buildProperty (fuel : nat) (t : reflect.Type_)
    : result (gmap string Property * list string) :=
  match fuel with
  | 0 => OutOfFuel
  | S fuel =>
      fields ← reflect.Fields U t;
      buildFields fuel (buildProperty fuel) fields (∅, [])
  end.

Fixpoint defineObject (fuel : nat) (t : reflect.Type_) : result Object :=
  match fuel with
  | 0 => OutOfFuel
  | S fuel =>
      let kind := reflect.kind U t in
      if bool_decide (kind = reflect.Ptr) then
        (* unwrap pointer *)
        e ← reflect.Elem U t; defineObject fuel e
      else
        match kind with
        | reflect.Slice | reflect.Array =>
            e ← reflect.Elem U t;
            p ← inspect fuel e;
            Ok (Object.mk (makeName t) types.Array "" [] ∅ (Some p) None)
        | reflect.Map =>
            e ← reflect.Elem U t;
            p ← inspect fuel e;
            Ok (Object.mk (makeName t) types.Object "" [] ∅ None (Some p))
        | reflect.Struct =>
            '(properties, required) ← buildProperty fuel t;
            Ok (Object.mk (makeName t) types.Object "" required properties None None)
        | _ =>
            p ← inspect fuel t;
            Ok (Object.mk (reflect.Kind_String kind) (Property.Type_ p) (Property.Format p)
                  [] ∅ None None)
        end
  end.

(** *** The closure loop of [define]

    The body of [for prop != nil { ... prop = prop.AdditionalProperties }],
    on the pair of the working map and the dirty flag, and the loop. *)
Definition visitNode (fuel : nat) (prop : Property) (st : Graph * bool)
    : result (Graph * bool) :=
  if bool_decide (reflect.kind U (Property.GoType prop) = reflect.Struct) then
    let name := makeName (Property.GoType prop) in
    match st.1 !! name with
    | Some _ => Ok st
    | None =>
        child ← defineObject fuel (Property.GoType prop);
        Ok (<[Object.Name child := child]> st.1, true)
    end
  else Ok st.

Fixpoint visitChain (fuel : nat) (prop : Property) (st : Graph * bool)
    : result (Graph * bool) :=
  st' ← visitNode fuel prop st;
  match Property.AdditionalProperties prop with
  | Some next => visitChain fuel next st'
  | None => Ok st'
  end.

(** [for _, p := range d.Properties], the properties taken in the order
    [ps]. *)
Fixpoint visitProps (fuel : nat) (ps : list Property) (st : Graph * bool)
    : result (Graph * bool) :=
  match ps with
  | [] => Ok st
  | p :: ps => st' ← visitChain fuel p st; visitProps fuel ps st'
  end.

(** Go leaves the order of a [range] over a map open, and an entry created
    during the iteration may be produced or skipped.  A configuration of
    the loop [for dirty { dirty = false; for _, d := range objMap {...} }]
    records the keys present when the current pass began, the keys the pass
    has produced so far, the working map and the flag. *)
Record Config : Type := mkConfig {
  start : gset string;
  seen : gset string;
  objMap : Graph;
  dirty : bool
}.

Definition initial (m : Graph) : Config := mkConfig (dom m) ∅ m false.

Inductive step (fuel : nat) : Config → Config → Prop :=
| step_visit c k d ps m' dirty' :
    k ∉ seen c →
    objMap c !! k = Some d →
    ps ≡ₚ (map_to_list (Object.Properties d)).*2 →
    visitProps fuel ps (objMap c, dirty c) = Ok (m', dirty') →
    step fuel c (mkConfig (start c) ({[k]} ∪ seen c) m' dirty')
| step_pass c :
    start c ⊆ seen c →
    dirty c = true →
    step fuel c (initial (objMap c)).

(** The loop is left when a pass has produced every entry it began with
    and has inserted nothing. *)
Definition final (c : Config) : Prop := start c ⊆ seen c ∧ dirty c = false.

(** [define(t)] may return [g], with call stacks of depth at most [fuel]. *)
Definition define_run (fuel : nat) (t : reflect.Type_) (g : Graph) : Prop :=
  ∃ obj c,
    defineObject fuel t = Ok obj ∧
    rtc (step fuel) (initial {[Object.Name obj := obj]}) c ∧
    final c ∧ objMap c = g.

(** Executable schedules: every pass produces the entries it began with and
    skips those created meanwhile; a schedule says in which order the keys
    of the working map and the properties of an object come, given the order
    of [map_to_list]; [passes] bounds the number of passes. *)
Record Schedule : Type := mkSchedule {
  keyOrder : list string → list string;
  propOrder : list Property → list Property
}.

Definition rangeProperties (sched : Schedule) (fuel : nat) (d : Object)
    (st : Graph * bool) : result (Graph * bool) :=
  visitProps fuel (propOrder sched (map_to_list (Object.Properties d)).*2) st.

Fixpoint rangeObjects (sched : Schedule) (fuel : nat) (keys : list string)
    (st : Graph * bool) : result (Graph * bool) :=
  match keys with
  | [] => Ok st
  | k :: keys =>
      match st.1 !! k with
      | Some d => st' ← rangeProperties sched fuel d st; rangeObjects sched fuel keys st'
      | None => rangeObjects sched fuel keys st
      end
  end.

Fixpoint defineLoop (sched : Schedule) (passes fuel : nat) (m : Graph) : result Graph :=
  match passes with
  | 0 => OutOfFuel
  | S passes =>
      '(m', dirty') ← rangeObjects sched fuel (keyOrder sched (map_to_list m).*1) (m, false);
      if dirty' : bool then defineLoop sched passes fuel m' else Ok m'
  end.

Definition define (sched : Schedule) (passes fuel : nat) (t : reflect.Type_)
    : result Graph :=
  obj ← defineObject fuel t;
  defineLoop sched passes fuel {[Object.Name obj := obj]}.
End Swag.

(** ** Auxiliary notions used in the statements *)

(** [unwraps U t d t']: following [Elem()] from [t] through [d] pointer types
    ends in [t'], which is not a pointer. *)
Inductive unwraps (U : reflect.Universe) : reflect.Type_ → nat → reflect.Type_ → Prop :=
| unwraps_done t :
    reflect.kind U t ≠ reflect.Ptr → unwraps U t 0 t
| unwraps_ptr t d t' :
    reflect.kind U t = reflect.Ptr →
    unwraps U (reflect.relem (U t)) d t' →
    unwraps U t (S d) t'.

(** The integer kinds that [Parse] lists. *)
Definition integerKinds : list reflect.Kind :=
  [reflect.Int; reflect.Int8; reflect.Int16; reflect.Int32; reflect.Int64;
   reflect.Uint; reflect.Uint8; reflect.Uint16; reflect.Uint32; reflect.Uint64].

Definition floatKinds : list reflect.Kind := [reflect.Float32; reflect.Float64].

(** The kinds that [Parse] names in its switch. *)
Definition classifiedKinds : list reflect.Kind :=
  reflect.Bool :: reflect.String :: reflect.Array :: reflect.Slice ::
  reflect.Struct :: reflect.Map :: (integerKinds ++ floatKinds)%list.

(** The width in bits of an integer kind, on a platform whose [int] and
    [uint] have [wordBits] bits. *)
Definition intBits (wordBits : nat) (k : reflect.Kind) : option nat :=
  match k with
  | reflect.Int8 | reflect.Uint8 => Some 8
  | reflect.Int16 | reflect.Uint16 => Some 16
  | reflect.Int32 | reflect.Uint32 => Some 32
  | reflect.Int64 | reflect.Uint64 => Some 64
  | reflect.Int | reflect.Uint => Some wordBits
  | _ => None
  end.

(** The format classification in the words of the specification: 8-, 16- and
    32-bit integer widths, signed or unsigned, give int32, 64-bit integer
    widths int64, 64-bit floats double, 32-bit floats float, every other type
    none. *)
Definition claimedFormat (wordBits : nat) (k : reflect.Kind) : types.Format :=
  match intBits wordBits k with
  | Some 8 | Some 16 | Some 32 => types.FormatInt32
  | Some 64 => types.FormatInt64
  | Some _ => types.FormatNone
  | None =>
      match k with
      | reflect.Float64 => types.FormatDouble
      | reflect.Float32 => types.FormatFloat
      | _ => types.FormatNone
      end
  end.

(** A field passes the test [strings.ToLower(field.Name[0:1]) ==
    field.Name[0:1]] of [buildProperty] as exported. *)
Definition exportedField (field : reflect.StructField) : Prop :=
  ∃ first, slice01 (reflect.Name field) = Ok first ∧ strings.ToLower first ≠ first.

(** The properties that the closure loop looks at when it is handed [p]:
    [p] and what follows it along [AdditionalProperties]. *)
Fixpoint chain (p : Property) : list Property :=
  p :: match Property.AdditionalProperties p with
       | Some next => chain next
       | None => []
       end.

(** Every property below [p], along [Items] as well as
    [AdditionalProperties]. *)
Fixpoint nested (p : Property) : list Property :=
  p :: (match Property.Items p with
        | Some items => nested items
        | None => []
        end ++
        match Property.AdditionalProperties p with
        | Some next => nested next
        | None => []
        end)%list.

(** The first comma-separated segment of a string, in the words of the
    specification: what stands before the first comma. *)
Fixpoint firstSegment (s : string) : string :=
  match s with
  | "" => ""
  | String c s' => if bool_decide (c = comma) then "" else String c (firstSegment s')
  end.

(** [later r r']: the call that gave [r] under one stack bound gives [r']
    under a larger one; a result other than [OutOfFuel] stays. *)
Definition later {A} (r r' : result A) : Prop := r ≠ OutOfFuel → r' = r.

(** *** Notions about the closure loop *)

Section LoopNotions.
Context (U : reflect.Universe) (reg : types.Registry).
Context (makeName : reflect.Type_ → string) (makeRef : string → string).

(** The properties of an object, as a [range] over them yields them. *)
Definition propertiesOf (d : Object) : list Property :=
  (map_to_list (Object.Properties d)).*2.

(** What the closure loop checks of an object [d] against the map [m]: every
    property it looks at whose [GoType] is a struct has its name in [m]. *)
Definition settled (m : Graph) (d : Object) : Prop :=
  ∀ p q, p ∈ propertiesOf d → q ∈ chain p →
    reflect.kind U (Property.GoType q) = reflect.Struct →
    makeName (Property.GoType q) ∈ dom m.

(** The entries that the loop can come to hold, starting from the object
    [obj0] of the root: [obj0] under its name, and the object of every struct
    type that the loop finds in an entry. *)
Inductive Reach (obj0 : Object) : string → Object → Prop :=
| Reach_root : Reach obj0 (Object.Name obj0) obj0
| Reach_step k d p q fuel child :
    Reach obj0 k d →
    p ∈ propertiesOf d →
    q ∈ chain p →
    reflect.kind U (Property.GoType q) = reflect.Struct →
    defineObject U reg makeName makeRef fuel (Property.GoType q) = Ok child →
    Reach obj0 (makeName (Property.GoType q)) child.

(** The measure that decreases along the steps of the loop, for [names]
    holding every key the map can get: the keys still missing, the flag, and
    the entries that the current pass has not produced. *)
Definition measure (names : gset string) (c : Config) : nat :=
  size (names ∖ dom (objMap c)) * (2 * S (size names))
  + (if dirty c then S (size names) else 0)
  + size (dom (objMap c) ∖ seen c).

(** A schedule is fair when its orders are rearrangements. *)
Definition fair (sched : Schedule) : Prop :=
  (∀ keys, keyOrder sched keys ≡ₚ keys) ∧ (∀ ps, propOrder sched ps ≡ₚ ps).

(** A property carries a reference to a record by name: the inspector set
    [Ref] for a struct type. *)
Definition refersTo (p : Property) (name : string) : Prop :=
  reflect.kind U (Property.GoType p) = reflect.Struct ∧
  name = makeName (Property.GoType p) ∧
  Property.Ref p = makeRef name.
End LoopNotions.

Section LoopInvariant.
Context (U : reflect.Universe) (reg : types.Registry).
Context (makeName : reflect.Type_ → string) (makeRef : string → string).

(** The loop body over a list of properties, one after the other. *)
Fixpoint visitAll (fuel : nat) (qs : list Property) (st : Graph * bool)
    : result (Graph * bool) :=
  match qs with
  | [] => Ok st
  | q :: qs =>
      st' ← visitNode U reg makeName makeRef fuel q st; visitAll fuel qs st'
  end.

(** What holds of every configuration of a run that began with the object
    [obj0] alone: while a pass has inserted nothing, the map has the keys the
    pass began with and the entries produced are settled; every entry is
    filed under its own name and is one of [Reach]; the first entry stays. *)
Definition invariant (obj0 : Object) (c : Config) : Prop :=
  (dirty c = false → dom (objMap c) = start c) ∧
  (dirty c = false → ∀ k d,
     k ∈ seen c → objMap c !! k = Some d → settled U makeName (objMap c) d) ∧
  (∀ k o, objMap c !! k = Some o →
     Reach U reg makeName makeRef obj0 k o ∧ Object.Name o = k) ∧
  objMap c !! Object.Name obj0 = Some obj0.
End LoopInvariant.

(** Three schedules: the order of [map_to_list]; the properties of each
    object the other way round; the keys of the working map the other way
    round. *)
Definition inOrder : Schedule := mkSchedule id id.
Definition propsReversed : Schedule := mkSchedule id reverse.
Definition keysReversed : Schedule := mkSchedule reverse id.

(** Modelled from the spec: [makeName] and [makeRef] are not among the
    sources.  The specification has the derived name of a type computed from
    the type's own declared name, and a reference a by-name pointer to a
    schema object; in the examples the name of a type is its [String()], the
    package name and the declared name, and a reference is the name behind
    [#/definitions/]. *)
Definition nameByString (U : reflect.Universe) (t : reflect.Type_) : string :=
  reflect.String_ U t.

Definition refTo (name : string) : string := "#/definitions/" +:+ name.

(** *** Type tables of the examples *)

Definition noType : reflect.rtype := reflect.mkRtype reflect.Invalid "" 0 [].

(** [type P *P]: a pointer type that is its own element type. *)
Definition selfPointerU : reflect.Universe :=
  fun _ => reflect.mkRtype reflect.Ptr "main.P" 0 [].

(** [0: uint], [1: int], [2: int64], [3: *int64], [4: **int64],
    [5: chan int], [6: json.Number] (a string type). *)
Definition scalarsU : reflect.Universe := fun t =>
  match t with
  | 0 => reflect.mkRtype reflect.Uint "uint" 0 []
  | 1 => reflect.mkRtype reflect.Int "int" 0 []
  | 2 => reflect.mkRtype reflect.Int64 "int64" 0 []
  | 3 => reflect.mkRtype reflect.Ptr "*int64" 2 []
  | 4 => reflect.mkRtype reflect.Ptr "**int64" 3 []
  | 5 => reflect.mkRtype reflect.Chan "chan int" 1 []
  | 6 => reflect.mkRtype reflect.String "json.Number" 0 []
  | _ => noType
  end.

(** [0: pkg.SpecialType], a struct with one field; [1: Holder], a struct
    with a field [Special pkg.SpecialType]; [2: int]. *)
Definition overrideU : reflect.Universe := fun t =>
  match t with
  | 0 => reflect.mkRtype reflect.Struct "pkg.SpecialType" 0
           [reflect.mkField "Value" 2 [] false]
  | 1 => reflect.mkRtype reflect.Struct "main.Holder" 0
           [reflect.mkField "Special" 0 [] false]
  | 2 => reflect.mkRtype reflect.Int "int" 0 []
  | _ => noType
  end.

(** [0: int], [1: string], [2: Base], a struct [{ ID int `required:""` }],
    [3: User], a struct [{ Base; Login string `json:"alias,omitempty"`;
    Secret string `json:"-"`; Age int `json:",omitempty" required:""` }],
    [4: *Base], [5: Node], a struct [{ *Base; Val int }]. *)
Definition fieldsU : reflect.Universe := fun t =>
  match t with
  | 0 => reflect.mkRtype reflect.Int "int" 0 []
  | 1 => reflect.mkRtype reflect.String "string" 0 []
  | 2 => reflect.mkRtype reflect.Struct "main.Base" 0
           [reflect.mkField "ID" 0 [("required", "")] false]
  | 3 => reflect.mkRtype reflect.Struct "main.User" 0
           [reflect.mkField "Base" 2 [] true;
            reflect.mkField "Login" 1 [("json", "alias,omitempty")] false;
            reflect.mkField "Secret" 1 [("json", "-")] false;
            reflect.mkField "Age" 0 [("json", ",omitempty"); ("required", "")] false]
  | 4 => reflect.mkRtype reflect.Ptr "*main.Base" 2 []
  | 5 => reflect.mkRtype reflect.Struct "main.Node" 0
           [reflect.mkField "Base" 4 [] true;
            reflect.mkField "Val" 0 [] false]
  | _ => noType
  end.

(** [0: int], [1: Inner], a struct [{ V int }], [2: []Inner],
    [3: [][]Inner], [4: Outer], a struct [{ Grid [][]Inner }]. *)
Definition nestedU : reflect.Universe := fun t =>
  match t with
  | 0 => reflect.mkRtype reflect.Int "int" 0 []
  | 1 => reflect.mkRtype reflect.Struct "main.Inner" 0
           [reflect.mkField "V" 0 [] false]
  | 2 => reflect.mkRtype reflect.Slice "[]main.Inner" 1 []
  | 3 => reflect.mkRtype reflect.Slice "[][]main.Inner" 2 []
  | 4 => reflect.mkRtype reflect.Struct "main.Outer" 0
           [reflect.mkField "Grid" 3 [] false]
  | _ => noType
  end.

(** [0: string], [1: Node], a struct [{ Label string; Next *Node;
    Kids []Node; ByName map[string]Node }], [2: *Node], [3: []Node],
    [4: map[string]Node]. *)
Definition nodeU : reflect.Universe := fun t =>
  match t with
  | 0 => reflect.mkRtype reflect.String "string" 0 []
  | 1 => reflect.mkRtype reflect.Struct "main.Node" 0
           [reflect.mkField "Label" 0 [] false;
            reflect.mkField "Next" 2 [] false;
            reflect.mkField "Kids" 3 [] false;
            reflect.mkField "ByName" 4 [] false]
  | 2 => reflect.mkRtype reflect.Ptr "*main.Node" 1 []
  | 3 => reflect.mkRtype reflect.Slice "[]main.Node" 1 []
  | 4 => reflect.mkRtype reflect.Map "map[string]main.Node" 1 []
  | _ => noType
  end.

(** [0: int], [1: string], [2] and [3]: two struct types [Settings] of two
    packages named [conf], with the same [String()]: [{ Port int }] and
    [{ Host string }]; [4: A], a struct [{ F conf.Settings }] with [F] of the
    first; [5: B], a struct [{ G conf.Settings }] with [G] of the second;
    [6: App], a struct [{ X A; Y B }]. *)
Definition clashU : reflect.Universe := fun t =>
  match t with
  | 0 => reflect.mkRtype reflect.Int "int" 0 []
  | 1 => reflect.mkRtype reflect.String "string" 0 []
  | 2 => reflect.mkRtype reflect.Struct "conf.Settings" 0
           [reflect.mkField "Port" 0 [] false]
  | 3 => reflect.mkRtype reflect.Struct "conf.Settings" 0
           [reflect.mkField "Host" 1 [] false]
  | 4 => reflect.mkRtype reflect.Struct "main.A" 0
           [reflect.mkField "F" 2 [] false]
  | 5 => reflect.mkRtype reflect.Struct "main.B" 0
           [reflect.mkField "G" 3 [] false]
  | 6 => reflect.mkRtype reflect.Struct "main.App" 0
           [reflect.mkField "X" 4 [] false;
            reflect.mkField "Y" 5 [] false]
  | _ => noType
  end.

(** [0: int]; [1: Base], a struct [{ ID int `required:""` }]; [2: Outer], a
    struct [{ Base `json:"-"` }] that embeds [Base] under the annotation [-];
    [3: base], a struct [{ ID int }] whose name is not exported; [4: Inner],
    a struct [{ base }] that embeds it. *)
Definition embeddedU : reflect.Universe := fun t =>
  match t with
  | 0 => reflect.mkRtype reflect.Int "int" 0 []
  | 1 => reflect.mkRtype reflect.Struct "main.Base" 0
           [reflect.mkField "ID" 0 [("required", "")] false]
  | 2 => reflect.mkRtype reflect.Struct "main.Outer" 0
           [reflect.mkField "Base" 1 [("json", "-")] true]
  | 3 => reflect.mkRtype reflect.Struct "main.base" 0
           [reflect.mkField "ID" 0 [] false]
  | 4 => reflect.mkRtype reflect.Struct "main.Inner" 0
           [reflect.mkField "base" 3 [] true]
  | _ => noType
  end.

(** What the inspector makes of the field [Grid [][]Inner] of [Outer] in
    [nestedU], and the object of [Outer]. *)
Definition innerReference (makeName : reflect.Type_ → string) (makeRef : string → string)
    : Property :=
  Property.mk 1 "" "" (makeRef (makeName 1)) "" "" [] None None.

Definition gridProperty (makeName : reflect.Type_ → string) (makeRef : string → string)
    : Property :=
  Property.mk 2 "array" "" "" "" "" []
    (Some (Property.mk 1 "array" "" "" "" "" []
             (Some (innerReference makeName makeRef)) None))
    None.

Definition outerObject (makeName : reflect.Type_ → string) (makeRef : string → string)
    : Object :=
  Object.mk (makeName 4) "object" "" [] {[ "Grid" := gridProperty makeName makeRef ]}
    None None.

(** Whether the entry [conf.Settings] of a graph has a property [Port]. *)
Definition settingsHavePort (g : Graph) : bool :=
  bool_decide (is_Some (g !! "conf.Settings" ≫= λ o, Object.Properties o !! "Port")).

(** The scenario of the specification: [0: string], [1: []string],
    [2: Pet], a struct [{ Name string; Tags []string `required:""` }]. *)
Definition petU : reflect.Universe := fun t =>
  match t with
  | 0 => reflect.mkRtype reflect.String "string" 0 []
  | 1 => reflect.mkRtype reflect.Slice "[]string" 0 []
  | 2 => reflect.mkRtype reflect.Struct "main.Pet" 0
           [reflect.mkField "Name" 0 [] false;
            reflect.mkField "Tags" 1 [("required", "")] false]
  | _ => noType
  end.

Definition petObject : Object :=
  Object.mk "main.Pet" "object" "" ["Tags"]
    {[ "Name" := Property.mk 0 "string" "" "" "" "" [] None None;
       "Tags" := Property.mk 0 "array" "" "" "" "" []
                   (Some (Property.mk 0 "string" "" "" "" "" [] None None)) None ]}
    None None.

(** ** [MakeSchema] *)

Module Schema.
Record t : Type := mk {
  Prototype : reflect.Type_;
  Ref : string
}.
End Schema.
Abbreviation Schema := Schema.t.

Section MakeSchema.
Context (U : reflect.Universe) (reg : types.Registry).
Context (makeName : reflect.Type_ → string) (makeRef : string → string).

(** [MakeSchema(prototype)], with the prototype given by its type, as
    [defineObject] reads it. *)
Definition MakeSchema (fuel : nat) (prototype : reflect.Type_) : result Schema :=
  obj ← defineObject U reg makeName makeRef fuel prototype;
  Ok (Schema.mk prototype (makeRef (Object.Name obj))).

(** The forms a property made by [inspect] has: no metadata, and for a
    type [s] that is not a pointer one of four: a scalar, with [s] as
    [GoType]; a reference by name to the struct [s], with [s] as [GoType] and
    the empty kind; a map, with [s] as [GoType] and the property that
    [inspect] returns for the type of its values; an array or slice, with the
    element type of [s] as [GoType] and, as [Items], the property that
    [inspect] returns for that element type. *)
Definition wellShaped (q : Property) : Prop :=
  Property.Example q = "" ∧ Property.Description q = "" ∧ Property.Enum q = [] ∧
  ∃ s, reflect.kind U s ≠ reflect.Ptr ∧
  (((reflect.kind U s ∉ [reflect.Struct; reflect.Map; reflect.Slice; reflect.Array]) ∧
    Property.GoType q = s ∧
    Property.Ref q = "" ∧ Property.Items q = None ∧
    Property.AdditionalProperties q = None) ∨
   (reflect.kind U s = reflect.Struct ∧
    Property.GoType q = s ∧
    Property.Type_ q = "" ∧
    Property.Ref q = makeRef (makeName s) ∧
    Property.Items q = None ∧ Property.AdditionalProperties q = None) ∨
   (reflect.kind U s = reflect.Map ∧
    Property.GoType q = s ∧
    Property.Ref q = "" ∧ Property.Items q = None ∧
    ∃ fuel ap, Property.AdditionalProperties q = Some ap ∧
               inspect U reg makeName makeRef fuel (reflect.relem (U s)) = Ok ap) ∨
   (reflect.kind U s ∈ [reflect.Slice; reflect.Array] ∧
    Property.GoType q = reflect.relem (U s) ∧
    Property.Ref q = "" ∧ Property.AdditionalProperties q = None ∧
    ∃ fuel items, Property.Items q = Some items ∧
                  inspect U reg makeName makeRef fuel (reflect.relem (U s)) = Ok items)).
End MakeSchema.

(** ** The field enumerator, field by field *)

(** The visibility test of [buildProperty] on the first byte of the name. *)
Definition isExported (field : reflect.StructField) : bool :=
  match reflect.Name field with
  | "" => false
  | String c _ => negb (strings.isASCII c && negb (strings.isUpper c))
  end.

(** The name that lines 72 to 83 of [buildProperty] give a field. *)
Definition nameOf (field : reflect.StructField) : string :=
  let a := strings.TrimSpace (reflect.Get (reflect.Tag field) "json") in
  firstSegment (if bool_decide (a = "") || strings.HasPrefix a ","
                then reflect.Name field else firstSegment a).

(** A field that is written into the mapping under its own name: exported,
    not embedded, and not named [-]. *)
Definition listed (field : reflect.StructField) : bool :=
  isExported field && negb (reflect.Anonymous field) && negb (bool_decide (nameOf field = "-")).

(** The names of the listed fields that carry a [required] tag, in the order
    of declaration. *)
Definition requiredOf (fields : list reflect.StructField) : list string :=
  omap (λ field,
          if listed field && bool_decide (is_Some (reflect.Lookup (reflect.Tag field) "required"))
          then Some (nameOf field) else None) fields.

(** The keys that the fields of a record bring into the mapping: the name of
    each listed field, and the keys of the mapping of each exported embedded
    field. *)
Definition keysOf (recur : reflect.Type_ → result (gmap string Property * list string))
    (fields : list reflect.StructField) : gset string :=
  ⋃ ((λ field,
        if isExported field then
          if reflect.Anonymous field then
            match recur (reflect.FType field) with
            | Ok (ps, _) => dom ps
            | _ => ∅
            end
          else if bool_decide (nameOf field = "-") then ∅ else {[ nameOf field ]}
        else ∅) <$> fields).

#[global] Instance result_fmap : FMap result := fun _ _ f r =>
  match r with
  | Ok a => Ok (f a)
  | Panic => Panic
  | OutOfFuel => OutOfFuel
  end.

(** The property that [buildProperty] files for a listed field: the base
    property with the overlays of the tags [example], [description], [desc]
    and [enum] laid over it, in this order. *)
Definition overlaid (tag : reflect.StructTag) (p : Property) : Property :=
  setEnum tag
    (setDescription (reflect.Get tag "desc")
       (setDescription (reflect.Get tag "description")
          (setExample tag p))).

(** [0: uint64], [1: int64], [2: time.Time], a struct whose fields [wall],
    [ext] and [loc] are not exported, [3: *time.Location],
    [4: time.Location], a struct without exported fields, [5: Event], a
    struct [{ At time.Time `desc:"when" description:"time of the event"`;
    Kind string `json:"kind,string" enum:"a,b"`; At2 time.Time `json:"At"` }],
    [6: string]. *)
Definition timeU : reflect.Universe := fun t =>
  match t with
  | 0 => reflect.mkRtype reflect.Uint64 "uint64" 0 []
  | 1 => reflect.mkRtype reflect.Int64 "int64" 0 []
  | 2 => reflect.mkRtype reflect.Struct "time.Time" 0
           [reflect.mkField "wall" 0 [] false;
            reflect.mkField "ext" 1 [] false;
            reflect.mkField "loc" 3 [] false]
  | 3 => reflect.mkRtype reflect.Ptr "*time.Location" 4 []
  | 4 => reflect.mkRtype reflect.Struct "time.Location" 0
           [reflect.mkField "name" 6 [] false]
  | 5 => reflect.mkRtype reflect.Struct "main.Event" 0
           [reflect.mkField "At" 2 [("desc", "when"); ("description", "time of the event")] false;
            reflect.mkField "Kind" 6 [("json", "kind,string"); ("enum", "a,b")] false;
            reflect.mkField "At2" 1 [("json", "At")] false]
  | 6 => reflect.mkRtype reflect.String "string" 0 []
  | _ => noType
  end.

(** * Properties *)

(** ** The result monad *)

Lemma bind_Ok {A B} (f : A → result B) (r : result A) (b : B) :
  r ≫= f = Ok b → ∃ a, r = Ok a ∧ f a = Ok b.
Proof. destruct r as [a| |]; simpl; [eauto | discriminate..]. Qed.

Lemma bind_settled {A B} (f : A → result B) (r : result A) :
  r ≫= f ≠ OutOfFuel → r ≠ OutOfFuel.
Proof. destruct r; simpl; congruence. Qed.

Lemma ret_bind {A B} (f : A → result B) (a : A) : Ok a ≫= f = f a.
Proof. reflexivity. Qed.

Ltac bind_inv H :=
  let a := fresh "a" in
  let Ha := fresh "H" a in
  apply bind_Ok in H as (a & Ha & H).

(** ** The classifiers *)

Section ClassifierFacts.
Context (U : reflect.Universe) (reg : types.Registry).

Lemma unwraps_functional t d1 t1 d2 t2 :
  unwraps U t d1 t1 → unwraps U t d2 t2 → d1 = d2 ∧ t1 = t2.
Proof.
  intros H1; revert d2 t2.
  induction H1 as [t Hk|t d t' Hk _ IH]; intros d2 t2 H2; inversion H2; subst; try done.
  destruct (IH _ _ H0) as [-> ->]; done.
Qed.

Lemma Elem_ptr t : reflect.kind U t = reflect.Ptr → reflect.Elem U t = Ok (reflect.relem (U t)).
Proof. unfold reflect.Elem; intros ->; done. Qed.

(** A call that did not exhaust its stack bound yields the same with a
    larger bound. *)
Lemma Parse_fuel_S fuel t r :
  types.Parse U reg fuel t = r → r ≠ OutOfFuel → types.Parse U reg (S fuel) t = r.
Proof.
  revert t r; induction fuel as [|fuel IH]; intros t r; [simpl; congruence|].
  intros H Hr. remember (S fuel) as n eqn:Hn. simpl. rewrite Hn in H; simpl in H.
  case_bool_decide as Hk; [|subst n; exact H].
  rewrite Elem_ptr in * by done. simpl in *. apply IH in H; [|done]. by subst n.
Qed.

Lemma ParseFormat_fuel_S fuel t r :
  types.ParseFormat U fuel t = r → r ≠ OutOfFuel → types.ParseFormat U (S fuel) t = r.
Proof.
  revert t r; induction fuel as [|fuel IH]; intros t r; [simpl; congruence|].
  intros H Hr. remember (S fuel) as n eqn:Hn. simpl. rewrite Hn in H; simpl in H.
  case_bool_decide as Hk; [|subst n; exact H].
  rewrite Elem_ptr in * by done. simpl in *. apply IH in H; [|done]. by subst n.
Qed.

Lemma Parse_unwraps t d t' fuel :
  unwraps U t d t' →
  types.Parse U reg (d + fuel) t = types.Parse U reg fuel t'.
Proof.
  induction 1 as [t Hk|t d t' Hk _ IH]; [done|].
  simpl. rewrite bool_decide_true by done. rewrite Elem_ptr by done. exact IH.
Qed.

Lemma ParseFormat_unwraps t d t' fuel :
  unwraps U t d t' →
  types.ParseFormat U (d + fuel) t = types.ParseFormat U fuel t'.
Proof.
  induction 1 as [t Hk|t d t' Hk _ IH]; [done|].
  simpl. rewrite bool_decide_true by done. rewrite Elem_ptr by done. exact IH.
Qed.

(** Without an end of the pointer chain there is no result. *)
Lemma Parse_Ok_unwraps fuel t pt :
  types.Parse U reg fuel t = Ok pt → ∃ d t', d < fuel ∧ unwraps U t d t'.
Proof.
  revert t; induction fuel as [|fuel IH]; intros t; [discriminate|].
  simpl. case_bool_decide as Hk.
  - rewrite Elem_ptr by done. simpl. intros (d & t' & Hd & Hu)%IH.
    exists (S d), t'. split; [lia|]. by constructor.
  - intros _. exists 0, t. split; [lia|]. by constructor.
Qed.
End ClassifierFacts.

Ltac kind_cases :=
  repeat match goal with
  | |- _ ∧ _ => split
  | |- _ → _ => intros ?
  | H : _ ∈ _ |- _ => apply list_elem_of_In in H; simpl in H
  | H : _ ∉ _ |- _ => rewrite list_elem_of_In in H; simpl in H
  end; try done; try intuition congruence.

(** C4, as amended: [Parse] returns one kind on every type whose chain of
    pointers ends: the chain is unwrapped to its end [t'], a registry entry
    for the name of [t'] other than [Unknown] is returned as it is, and
    without one the kind of [t'] decides: bool gives boolean, the signed and
    unsigned integer kinds integer, the float kinds number, string string,
    array and slice array, struct and map object, every other kind
    unknown. *)
Theorem Parse_classifies (U : reflect.Universe) (reg : types.Registry)
    (t : reflect.Type_) (d : nat) (t' : reflect.Type_) :
  unwraps U t d t' →
  ∃ pt,
    (∀ fuel, d < fuel → types.Parse U reg fuel t = Ok pt) ∧
    (types.Get reg (reflect.String_ U t') ≠ types.Unknown →
       pt = types.Get reg (reflect.String_ U t')) ∧
    (types.Get reg (reflect.String_ U t') = types.Unknown →
       let k := reflect.kind U t' in
       (k = reflect.Bool → pt = types.Boolean) ∧
       (k ∈ integerKinds → pt = types.Integer) ∧
       (k ∈ floatKinds → pt = types.Number) ∧
       (k = reflect.String → pt = types.String) ∧
       (k = reflect.Array ∨ k = reflect.Slice → pt = types.Array) ∧
       (k = reflect.Struct ∨ k = reflect.Map → pt = types.Object) ∧
       (k ∉ classifiedKinds → pt = types.Unknown)).
Proof.
  intros Hu.
  assert (Hk : reflect.kind U t' ≠ reflect.Ptr).
  { clear -Hu. induction Hu; done. }
  destruct (decide (types.Get reg (reflect.String_ U t') = types.Unknown)) as [Hg|Hg].
  - exists (match reflect.kind U t' with
            | reflect.Bool => types.Boolean
            | reflect.Float32 | reflect.Float64 => types.Number
            | reflect.Int | reflect.Int8 | reflect.Int16 | reflect.Int32 | reflect.Int64
            | reflect.Uint | reflect.Uint8 | reflect.Uint16 | reflect.Uint32
            | reflect.Uint64 => types.Integer
            | reflect.String => types.String
            | reflect.Array | reflect.Slice => types.Array
            | reflect.Struct | reflect.Map => types.Object
            | _ => types.Unknown
            end).
    split; [|split; [done|]].
    + intros fuel Hd. replace fuel with (d + S (fuel - S d)) by lia.
      rewrite (Parse_unwraps _ _ _ _ _ _ Hu). simpl.
      rewrite bool_decide_false by done. rewrite bool_decide_false by (intros ?; done).
      destruct (reflect.kind U t'); done.
    + intros _. simpl. destruct (reflect.kind U t'); kind_cases.
  - exists (types.Get reg (reflect.String_ U t')).
    split; [|done].
    intros fuel Hd. replace fuel with (d + S (fuel - S d)) by lia.
    rewrite (Parse_unwraps _ _ _ _ _ _ Hu). simpl.
    rewrite bool_decide_false by done. by rewrite bool_decide_true.
Qed.

Lemma Parse_classifies_witness :
  ∃ pt,
    (∀ fuel, 2 < fuel → types.Parse scalarsU types.ptMapping fuel 4 = Ok pt) ∧
    pt = types.Integer.
Proof.
  destruct (Parse_classifies scalarsU types.ptMapping 4 2 2) as (pt & Hpt & _ & Htab).
  { apply unwraps_ptr; [done|]. apply unwraps_ptr; [done|]. by apply unwraps_done. }
  exists pt. split; [exact Hpt|].
  apply Htab; [done|]. apply list_elem_of_In; simpl; tauto.
Defined.

(** C4, the claim as stated fails on [type P *P]: unwrapping never reaches a
    type that is not a pointer, and no stack bound lets [Parse] return. *)
Lemma Parse_no_result_on_self_pointer :
  ¬ ∃ fuel pt, types.Parse selfPointerU types.ptMapping fuel 0 = Ok pt.
Proof.
  intros (fuel & pt & H). induction fuel as [|fuel IH]; [discriminate|].
  simpl in H. exact (IH H).
Qed.

(** C5, as amended: after a chain of pointers is unwrapped to its end [t'],
    and whatever the registry holds ([ParseFormat] does not take it), the
    format is int32 for the kinds int8, int16, int32, uint8, uint16, uint32
    and for the platform-sized int, int64 for int64 and uint64, double for
    float64, float for float32, and none for every kind that is not an
    integer or float kind.  (The platform-sized uint is left out.) *)
Theorem ParseFormat_classifies (U : reflect.Universe)
    (t : reflect.Type_) (d : nat) (t' : reflect.Type_) :
  unwraps U t d t' →
  reflect.kind U t' ≠ reflect.Uint →
  ∃ format,
    (∀ fuel, d < fuel → types.ParseFormat U fuel t = Ok format) ∧
    let k := reflect.kind U t' in
    (k ∈ [reflect.Int8; reflect.Int16; reflect.Int32;
          reflect.Uint8; reflect.Uint16; reflect.Uint32; reflect.Int] →
       format = types.FormatInt32) ∧
    (k ∈ [reflect.Int64; reflect.Uint64] → format = types.FormatInt64) ∧
    (k = reflect.Float64 → format = types.FormatDouble) ∧
    (k = reflect.Float32 → format = types.FormatFloat) ∧
    (k ∉ (integerKinds ++ floatKinds)%list → format = types.FormatNone).
Proof.
  intros Hu Hne.
  assert (Hk : reflect.kind U t' ≠ reflect.Ptr).
  { clear -Hu. induction Hu; done. }
  exists (match reflect.kind U t' with
          | reflect.Int | reflect.Int8 | reflect.Int16 | reflect.Int32
          | reflect.Uint8 | reflect.Uint16 | reflect.Uint32 => types.FormatInt32
          | reflect.Int64 | reflect.Uint64 => types.FormatInt64
          | reflect.Float64 => types.FormatDouble
          | reflect.Float32 => types.FormatFloat
          | _ => types.FormatNone
          end).
  split.
  - intros fuel Hd. replace fuel with (d + S (fuel - S d)) by lia.
    rewrite (ParseFormat_unwraps _ _ _ _ _ Hu). simpl.
    rewrite bool_decide_false by done.
    destruct (reflect.kind U t'); done.
  - simpl. destruct (reflect.kind U t'); kind_cases.
Qed.

Lemma ParseFormat_classifies_witness :
  ∃ format,
    (∀ fuel, 2 < fuel → types.ParseFormat scalarsU fuel 4 = Ok format) ∧
    format = types.FormatInt64.
Proof.
  destruct (ParseFormat_classifies scalarsU 4 2 2) as (format & Hf & _ & H64 & _).
  { apply unwraps_ptr; [done|]. apply unwraps_ptr; [done|]. by apply unwraps_done. }
  { done. }
  exists format. split; [exact Hf|].
  apply H64. apply list_elem_of_In; simpl; tauto.
Defined.

(** C5, the claim as stated fails: whether [uint] has 32 or 64 bits, the
    claimed format of [uint] is int32 or int64, and [ParseFormat] gives none;
    and where [int] has 64 bits its claimed format is int64, and
    [ParseFormat] gives int32. *)
Lemma ParseFormat_differs_from_claimedFormat :
  (¬ ∃ wordBits, (wordBits = 32 ∨ wordBits = 64) ∧
       types.ParseFormat scalarsU 1 0 = Ok (claimedFormat wordBits reflect.Uint)) ∧
  types.ParseFormat scalarsU 1 0 = Ok types.FormatNone ∧
  types.ParseFormat scalarsU 1 1 = Ok types.FormatInt32 ∧
  claimedFormat 64 reflect.Int = types.FormatInt64.
Proof.
  split; [|done].
  intros (w & [-> | ->] & H); discriminate H.
Qed.

(** ** Stack bounds: a result, once there, stays *)

Lemma later_refl {A} (r : result A) : later r r.
Proof. by intros _. Qed.

Lemma later_bind {A B} (r r' : result A) (f f' : A → result B) :
  later r r' → (∀ a, later (f a) (f' a)) → later (r ≫= f) (r' ≫= f').
Proof.
  intros Hr Hf Hb. rewrite Hr by (by apply bind_settled in Hb).
  destruct r as [a| |]; simpl in *; [by apply Hf|done..].
Qed.

Lemma later_trans {A} (r1 r2 r3 : result A) : later r1 r2 → later r2 r3 → later r1 r3.
Proof. intros H12 H23 H1. rewrite <- (H12 H1). apply H23. by rewrite (H12 H1). Qed.

Section FuelFacts.
Context (U : reflect.Universe) (reg : types.Registry).
Context (makeName : reflect.Type_ → string) (makeRef : string → string).

Lemma Parse_later fuel t :
  later (types.Parse U reg fuel t) (types.Parse U reg (S fuel) t).
Proof. intros H. by apply Parse_fuel_S. Qed.

Lemma ParseFormat_later fuel t :
  later (types.ParseFormat U fuel t) (types.ParseFormat U (S fuel) t).
Proof. intros H. by apply ParseFormat_fuel_S. Qed.

Lemma inspect_S fuel t :
  inspect U reg makeName makeRef (S fuel) t =
    if bool_decide (reflect.kind U t = reflect.Ptr) then
      e ← reflect.Elem U t; inspect U reg makeName makeRef fuel e
    else
      type ← types.Parse U reg fuel t;
      format ← types.ParseFormat U fuel t;
      match reflect.kind U t with
      | reflect.Struct =>
          Ok (Property.mk t "" format (makeRef (makeName t)) "" "" [] None None)
      | reflect.Map =>
          e ← reflect.Elem U t;
          ap ← inspect U reg makeName makeRef fuel e;
          Ok (Property.mk t type format "" "" "" [] None (Some ap))
      | reflect.Slice | reflect.Array =>
          e ← reflect.Elem U t;
          items ← inspect U reg makeName makeRef fuel e;
          Ok (Property.mk e type format "" "" "" [] (Some items) None)
      | _ => Ok (Property.mk t type format "" "" "" [] None None)
      end.
Proof. reflexivity. Qed.

Lemma inspect_later fuel t :
  later (inspect U reg makeName makeRef fuel t) (inspect U reg makeName makeRef (S fuel) t).
Proof.
  revert t; induction fuel as [|fuel IH]; intros t; [by intros []|].
  rewrite !inspect_S. case_bool_decide.
  - apply later_bind; [apply later_refl|]. intros e. apply IH.
  - apply later_bind; [apply Parse_later|]. intros type.
    apply later_bind; [apply ParseFormat_later|]. intros format.
    destruct (reflect.kind U t); try apply later_refl;
      (apply later_bind; [apply later_refl|]; intros e;
       apply later_bind; [apply IH|]; intros q; apply later_refl).
Qed.

Lemma buildField_later fuel recur recur' field st :
  (∀ t, later (recur t) (recur' t)) →
  later (buildField U reg makeName makeRef fuel recur field st)
        (buildField U reg makeName makeRef (S fuel) recur' field st).
Proof.
  intros Hrec. destruct st as [properties required]. unfold buildField.
  apply later_bind; [apply later_refl|]. intros first.
  case_bool_decide; [apply later_refl|].
  destruct (reflect.Anonymous field).
  - apply later_bind; [apply Hrec|]. intros [ps ?]. apply later_refl.
  - apply later_bind; [apply later_refl|]. intros name.
    case_bool_decide; [apply later_refl|].
    apply later_bind; [|intros p; apply later_refl].
    destruct (strings.Contains _ _); [apply later_refl|apply inspect_later].
Qed.

Lemma buildFields_later fuel recur recur' fields st :
  (∀ t, later (recur t) (recur' t)) →
  later (buildFields U reg makeName makeRef fuel recur fields st)
        (buildFields U reg makeName makeRef (S fuel) recur' fields st).
Proof.
  intros Hrec. revert st; induction fields as [|field fields IH]; intros st; simpl.
  - apply later_refl.
  - apply later_bind; [by apply buildField_later|]. intros st'. apply IH.
Qed.

Lemma buildProperty_later fuel t :
  later (buildProperty U reg makeName makeRef fuel t)
        (buildProperty U reg makeName makeRef (S fuel) t).
Proof.
  revert t; induction fuel as [|fuel IH]; intros t; [by intros []|].
  cbn [buildProperty].
  apply later_bind; [apply later_refl|]. intros fields.
  apply buildFields_later. exact IH.
Qed.

Lemma defineObject_S fuel t :
  defineObject U reg makeName makeRef (S fuel) t =
    if bool_decide (reflect.kind U t = reflect.Ptr) then
      e ← reflect.Elem U t; defineObject U reg makeName makeRef fuel e
    else
      match reflect.kind U t with
      | reflect.Slice | reflect.Array =>
          e ← reflect.Elem U t;
          p ← inspect U reg makeName makeRef fuel e;
          Ok (Object.mk (makeName t) types.Array "" [] ∅ (Some p) None)
      | reflect.Map =>
          e ← reflect.Elem U t;
          p ← inspect U reg makeName makeRef fuel e;
          Ok (Object.mk (makeName t) types.Object "" [] ∅ None (Some p))
      | reflect.Struct =>
          '(properties, required) ← buildProperty U reg makeName makeRef fuel t;
          Ok (Object.mk (makeName t) types.Object "" required properties None None)
      | k =>
          p ← inspect U reg makeName makeRef fuel t;
          Ok (Object.mk (reflect.Kind_String k) (Property.Type_ p) (Property.Format p)
                [] ∅ None None)
      end.
Proof. simpl. case_bool_decide; [done|]. by destruct (reflect.kind U t). Qed.

Lemma defineObject_later fuel t :
  later (defineObject U reg makeName makeRef fuel t)
        (defineObject U reg makeName makeRef (S fuel) t).
Proof.
  revert t; induction fuel as [|fuel IH]; intros t; [by intros []|].
  rewrite !defineObject_S. case_bool_decide.
  - apply later_bind; [apply later_refl|]. intros e. apply IH.
  - destruct (reflect.kind U t);
      first [ apply later_bind; [apply inspect_later|]; intros p; apply later_refl
            | apply later_bind; [apply buildProperty_later|]; intros [??]; apply later_refl
            | apply later_bind; [apply later_refl|]; intros e;
              apply later_bind; [apply inspect_later|]; intros p; apply later_refl ].
Qed.

Lemma later_le {A} (f : nat → result A) :
  (∀ n, later (f n) (f (S n))) → ∀ n m, (n ≤ m)%nat → later (f n) (f m).
Proof.
  intros Hf n m Hle. induction Hle as [|m _ IH]; [apply later_refl|].
  eapply later_trans; [exact IH|apply Hf].
Qed.

(** Two results of the same call under different stack bounds agree. *)
Lemma defineObject_agree fuel1 fuel2 t o1 o2 :
  defineObject U reg makeName makeRef fuel1 t = Ok o1 →
  defineObject U reg makeName makeRef fuel2 t = Ok o2 →
  o1 = o2.
Proof.
  intros H1 H2.
  destruct (Nat.le_ge_cases fuel1 fuel2) as [Hle|Hle].
  - pose proof (later_le (λ n, defineObject U reg makeName makeRef n t)
      (λ n, defineObject_later n t) _ _ Hle) as Hl.
    simpl in Hl. rewrite H1, H2 in Hl. by injection (Hl ltac:(done)).
  - pose proof (later_le (λ n, defineObject U reg makeName makeRef n t)
      (λ n, defineObject_later n t) _ _ Hle) as Hl.
    simpl in Hl. rewrite H1, H2 in Hl. by injection (Hl ltac:(done)).
Qed.

End FuelFacts.

(** ** The property inspector and the registry *)

Section InspectFacts.
Context (U : reflect.Universe) (reg : types.Registry).
Context (makeName : reflect.Type_ → string) (makeRef : string → string).

Lemma inspect_unwraps t d t' fuel :
  unwraps U t d t' →
  inspect U reg makeName makeRef (d + fuel) t = inspect U reg makeName makeRef fuel t'.
Proof.
  induction 1 as [t Hk|t d t' Hk _ IH]; [done|].
  simpl. rewrite bool_decide_true by done. rewrite Elem_ptr by done. exact IH.
Qed.

(** Where the field's type is not a struct, the registry entry for its
    name is the kind of the property. *)
Lemma inspect_registered_not_struct t d t' fuel p :
  unwraps U t d t' →
  reflect.kind U t' ≠ reflect.Struct →
  types.Get reg (reflect.String_ U t') ≠ types.Unknown →
  inspect U reg makeName makeRef fuel t = Ok p →
  Property.Type_ p = types.Get reg (reflect.String_ U t').
Proof.
  intros Hu Hs Hg Hp.
  assert (Hk : reflect.kind U t' ≠ reflect.Ptr) by (clear -Hu; induction Hu; done).
  destruct (decide (fuel ≤ d)%nat) as [Hle|Hgt].
  { exfalso. clear Hs Hg Hk. revert fuel Hle Hp.
    induction Hu as [t _|t d t' Hkt _ IH]; intros fuel Hle Hp.
    - by replace fuel with 0 in Hp by lia.
    - destruct fuel as [|fuel]; [done|]. rewrite inspect_S in Hp.
      rewrite bool_decide_true, Elem_ptr in Hp by done. apply (IH fuel); [lia|done]. }
  replace fuel with (d + S (fuel - S d)) in Hp by lia.
  rewrite (inspect_unwraps _ _ _ _ Hu), inspect_S in Hp.
  rewrite bool_decide_false in Hp by done.
  bind_inv Hp. bind_inv Hp.
  assert (a = types.Get reg (reflect.String_ U t')) as ->.
  { destruct (fuel - S d) as [|n]; [done|]. simpl in Ha.
    rewrite bool_decide_false in Ha by done.
    rewrite bool_decide_true in Ha by done. congruence. }
  destruct (reflect.kind U t'); try done; try (by injection Hp as <-);
    bind_inv Hp; bind_inv Hp; by injection Hp as <-.
Qed.
End InspectFacts.

(** C1, the code at a failing input: with [pkg.SpecialType], a struct,
    registered as integer, [Parse] gives integer for it, and yet the
    property that the field enumerator files for a field of that type has an
    empty kind and a reference by name. *)
Theorem inspect_drops_registered_kind_of_struct
    (makeName : reflect.Type_ → string) (makeRef : string → string) :
  let reg := types.Register types.ptMapping "pkg.SpecialType" types.Integer in
  types.Get reg (reflect.String_ overrideU 0) = types.Integer ∧
  types.Parse overrideU reg 1 0 = Ok types.Integer ∧
  inspect overrideU reg makeName makeRef 2 0 =
    Ok (Property.mk 0 "" "" (makeRef (makeName 0)) "" "" [] None None) ∧
  ∃ properties,
    buildProperty overrideU reg makeName makeRef 4 1 = Ok (properties, []) ∧
    properties !! "Special" =
      Some (Property.mk 0 "" "" (makeRef (makeName 0)) "" "" [] None None).
Proof.
  repeat split; try by vm_compute.
  eexists. split; [vm_compute; reflexivity|]. by vm_compute.
Qed.

(** ** Strings *)

Lemma Split_firstSegment s : ∃ rest, strings.Split s comma = firstSegment s :: rest.
Proof.
  induction s as [|c s [rest IH]]; simpl; [by eexists|].
  case_bool_decide; [by eexists|]. rewrite IH. by eexists.
Qed.

Lemma index0_Split s : index0 (strings.Split s comma) = Ok (firstSegment s).
Proof. destruct (Split_firstSegment s) as [rest ->]. done. Qed.

Lemma firstSegment_idemp s : firstSegment (firstSegment s) = firstSegment s.
Proof.
  induction s as [|c s IH]; simpl; [done|].
  case_bool_decide as Hc; simpl; [done|]. rewrite bool_decide_false by done. by rewrite IH.
Qed.

Lemma firstSegment_no_comma s : strings.Contains s "," = false → firstSegment s = s.
Proof.
  induction s as [|c s IH]; simpl; [done|].
  intros [Hp Hc]%orb_false_elim. rewrite IH by done.
  case_bool_decide as Heq; [|done].
  subst c. by destruct s.
Qed.

(** ** The field enumerator *)

Section FieldFacts.
Context (U : reflect.Universe) (reg : types.Registry).
Context (makeName : reflect.Type_ → string) (makeRef : string → string).

#[local] Abbreviation buildField' := (buildField U reg makeName makeRef).
#[local] Abbreviation buildFields' := (buildFields U reg makeName makeRef).
#[local] Abbreviation buildProperty' := (buildProperty U reg makeName makeRef).

Lemma jsonName_eq field :
  jsonName field =
    Ok (firstSegment
          (let a := strings.TrimSpace (reflect.Get (reflect.Tag field) "json") in
           if bool_decide (a = "") || strings.HasPrefix a ","
           then reflect.Name field else firstSegment a)).
Proof.
  unfold jsonName.
  destruct (bool_decide _ || strings.HasPrefix _ _); simpl.
  - apply index0_Split.
  - rewrite index0_Split. simpl. apply index0_Split.
Qed.

Lemma buildField_exported fuel recur field st :
  exportedField field →
  buildField' fuel recur field st =
    if reflect.Anonymous field then
      '(ps, _) ← recur (reflect.FType field); Ok (ps ∪ st.1, st.2)
    else
      name ← jsonName field;
      if bool_decide (name = "-") then Ok st
      else
        p ← (if strings.Contains (reflect.Get (reflect.Tag field) "json") ",string"
             then Ok (Property.mk (reflect.FType field) types.String "" "" "" "" [] None None)
             else inspect U reg makeName makeRef fuel (reflect.FType field));
        Ok (<[name :=
               setEnum (reflect.Tag field)
                 (setDescription (reflect.Get (reflect.Tag field) "desc")
                    (setDescription (reflect.Get (reflect.Tag field) "description")
                       (setExample (reflect.Tag field) p)))]> st.1,
            match reflect.Lookup (reflect.Tag field) "required" with
            | Some _ => (st.2 ++ [name])%list
            | None => st.2
            end).
Proof.
  intros (first & Hf & Hne). destruct st as [properties required].
  unfold buildField. rewrite Hf. simpl. rewrite bool_decide_false by done. done.
Qed.

(** What one turn of the loop can do to the state. *)
Lemma buildField_Ok fuel recur field st st' :
  buildField' fuel recur field st = Ok st' →
  st' = st ∨
  (∃ ps rq, recur (reflect.FType field) = Ok (ps, rq) ∧ st' = (ps ∪ st.1, st.2)) ∨
  (∃ name p, st'.1 = <[name := p]> st.1 ∧ (st'.2 = st.2 ∨ st'.2 = (st.2 ++ [name])%list)).
Proof.
  destruct st as [properties required]. unfold buildField. intros H.
  bind_inv H. case_bool_decide; [left; congruence|].
  destruct (reflect.Anonymous field).
  - bind_inv H. destruct a0 as [ps rq]. injection H as <-. right; left. by exists ps, rq.
  - bind_inv H. case_bool_decide; [left; congruence|].
    bind_inv H. injection H as <-. right; right. eexists _, _. split; [done|].
    simpl. destruct (reflect.Lookup _ _); auto.
Qed.

Lemma buildFields_app fuel recur pre post st :
  buildFields' fuel recur (pre ++ post) st =
    buildFields' fuel recur pre st ≫= buildFields' fuel recur post.
Proof.
  revert st; induction pre as [|f pre IH]; intros st; simpl; [done|].
  destruct (buildField' fuel recur f st) as [st'| |]; simpl; [apply IH|done..].
Qed.

Lemma buildFields_dom fuel recur fields st st' :
  buildFields' fuel recur fields st = Ok st' → dom st.1 ⊆ dom st'.1.
Proof.
  revert st; induction fields as [|f fields IH]; intros st; simpl.
  - by intros [= ->].
  - intros H. bind_inv H. apply IH in H. etrans; [|exact H].
    destruct a as [properties' required'].
    apply buildField_Ok in Ha as [->|[(ps & rq & _ & ->)|(name & p & Hp & _)]];
      simpl in *.
    + done.
    + rewrite dom_union. set_solver.
    + subst properties'. rewrite dom_insert. set_solver.
Qed.

Lemma buildFields_required fuel recur fields st st' :
  buildFields' fuel recur fields st = Ok st' →
  (∀ name, name ∈ st.2 → name ∈ dom st.1) →
  ∀ name, name ∈ st'.2 → name ∈ dom st'.1.
Proof.
  revert st; induction fields as [|f fields IH]; intros st; simpl.
  - by intros [= ->].
  - intros H Hst. bind_inv H. apply (IH _ H).
    destruct a as [properties' required'].
    apply buildField_Ok in Ha as [->|[(ps & rq & _ & ->)|(name & p & Hp & Hr)]];
      simpl in *.
    + done.
    + intros name Hn. rewrite dom_union. apply Hst in Hn. set_solver.
    + intros n Hn. subst properties'. rewrite dom_insert.
      destruct Hr as [-> | ->].
      * apply Hst in Hn. set_solver.
      * apply elem_of_app in Hn as [Hn|Hn%list_elem_of_singleton].
        { apply Hst in Hn. set_solver. }
        { set_solver. }
Qed.

Lemma buildFields_each fuel recur fields st st' field :
  buildFields' fuel recur fields st = Ok st' →
  field ∈ fields →
  ∃ s s', buildField' fuel recur field s = Ok s'.
Proof.
  revert st; induction fields as [|f fields IH]; intros st; simpl.
  - intros _ Hin. by apply elem_of_nil in Hin.
  - intros H Hin. bind_inv H. apply elem_of_cons in Hin as [->|Hin]; [eauto|].
    by apply (IH _ H).
Qed.

Lemma buildProperty_not_struct fuel t :
  reflect.kind U t ≠ reflect.Struct → buildProperty' (S fuel) t = Panic.
Proof. simpl. unfold reflect.Fields. by destruct (reflect.kind U t). Qed.
End FieldFacts.

(** C6, as amended: for a field that is exported and not embedded and whose
    declared name holds no comma, with [a] its [json] annotation (the white
    space at its two ends removed): the name is the first
    comma-separated segment of [a] when [a] is present, that is neither
    empty nor begins with a comma; it is the declared name when [a] is empty
    or begins with a comma; the annotation [-] leaves the mapping and the
    required list as they were; and under any name other than [-] the field
    is written into the mapping under that name. *)
Theorem field_name_from_annotation (U : reflect.Universe) (reg : types.Registry)
    (makeName : reflect.Type_ → string) (makeRef : string → string)
    (fuel : nat) (recur : reflect.Type_ → result (gmap string Property * list string))
    (field : reflect.StructField) (st : gmap string Property * list string) :
  exportedField field →
  reflect.Anonymous field = false →
  strings.Contains (reflect.Name field) "," = false →
  let a := strings.TrimSpace (reflect.Get (reflect.Tag field) "json") in
  ∃ name,
    jsonName field = Ok name ∧
    (a ≠ "" → strings.HasPrefix a "," = false → name = firstSegment a) ∧
    (a = "" ∨ strings.HasPrefix a "," = true → name = reflect.Name field) ∧
    (a = "-" → buildField U reg makeName makeRef fuel recur field st = Ok st) ∧
    (name ≠ "-" →
     returns (inspect U reg makeName makeRef fuel (reflect.FType field)) →
     ∃ p required',
       buildField U reg makeName makeRef fuel recur field st =
         Ok (<[name := p]> st.1, required')).
Proof.
  intros Hexp Hanon Hcomma a.
  pose proof (jsonName_eq field) as Hname. cbv zeta in Hname. fold a in Hname.
  set (name := firstSegment _) in Hname.
  exists name. split; [exact Hname|].
  repeat split.
  - intros Ha Hp. unfold name. rewrite bool_decide_false by done. rewrite Hp. simpl.
    apply firstSegment_idemp.
  - intros [Ha|Hp]; unfold name.
    + rewrite bool_decide_true by done. simpl. by apply firstSegment_no_comma.
    + rewrite Hp, orb_true_r. by apply firstSegment_no_comma.
  - intros Ha. rewrite buildField_exported, Hanon, Hname by done.
    unfold name. rewrite Ha. simpl. done.
  - intros Hne [p0 Hp0].
    rewrite buildField_exported, Hanon, Hname by done. simpl.
    rewrite bool_decide_false by done. rewrite Hp0.
    destruct (strings.Contains _ ",string"); simpl; eauto.
Qed.

Lemma field_name_from_annotation_witness :
  ∃ p required',
    buildField fieldsU types.ptMapping (λ t, "") (λ s, s) 2 (λ _, Panic)
      (reflect.mkField "Login" 1 [("json", "alias,omitempty")] false) (∅, []) =
    Ok (<["alias" := p]> ∅, required').
Proof.
  destruct (field_name_from_annotation fieldsU types.ptMapping (λ t, "") (λ s, s) 2
              (λ _, Panic) (reflect.mkField "Login" 1 [("json", "alias,omitempty")] false)
              (∅, [])) as (name & Hname & Hseg & _ & _ & Hput).
  { exists "L". by vm_compute. }
  { done. }
  { done. }
  assert (name = "alias") as -> by (apply Hseg; done).
  apply Hput; [done|]. eexists. by vm_compute.
Defined.

(** C6, the claim as stated fails on an exported field that is embedded:
    the loop splices the mapping of the embedded record before it reads any
    annotation, so [Outer], whose one field is [Base] under the annotation
    [-], is given the key [ID] of [Base] where the claim has the field
    omitted. *)
Lemma annotation_of_embedded_field_not_read :
  exportedField (reflect.mkField "Base" 1 [("json", "-")] true) ∧
  reflect.rfields (embeddedU 2) = [reflect.mkField "Base" 1 [("json", "-")] true] ∧
  strings.TrimSpace (reflect.Get [("json", "-")] "json") = "-" ∧
  buildProperty embeddedU types.ptMapping (nameByString embeddedU) refTo 4 2 =
    Ok ({[ "ID" := Property.mk 0 "integer" "int32" "" "" "" [] None None ]}, []).
Proof.
  split; [exists "B"; by vm_compute|].
  split; [reflexivity|]. split; [by vm_compute|].
  vm_compute. reflexivity.
Qed.

(** C7, as amended: when the loop over the fields of a record comes to an
    exported embedded field whose own enumeration gave the mapping [ps] and the
    required list [rq], it goes on with [ps] merged into the mapping and with
    the required list unchanged: the result does not depend on [rq], and every
    key of [ps] is a key of the mapping returned. *)
Theorem embedded_fields_spliced (U : reflect.Universe) (reg : types.Registry)
    (makeName : reflect.Type_ → string) (makeRef : string → string)
    (fuel : nat) (t : reflect.Type_)
    (pre post : list reflect.StructField) (field : reflect.StructField)
    (properties1 ps : gmap string Property) (required1 rq : list string) :
  reflect.kind U t = reflect.Struct →
  reflect.rfields (U t) = (pre ++ field :: post)%list →
  exportedField field →
  reflect.Anonymous field = true →
  buildFields U reg makeName makeRef fuel (buildProperty U reg makeName makeRef fuel)
    pre (∅, []) = Ok (properties1, required1) →
  buildProperty U reg makeName makeRef fuel (reflect.FType field) = Ok (ps, rq) →
  buildProperty U reg makeName makeRef (S fuel) t =
    buildFields U reg makeName makeRef fuel (buildProperty U reg makeName makeRef fuel)
      post (ps ∪ properties1, required1) ∧
  ∀ properties required,
    buildProperty U reg makeName makeRef (S fuel) t = Ok (properties, required) →
    dom ps ⊆ dom properties.
Proof.
  intros Hk Hfields Hexp Hanon Hpre Hemb.
  assert (Heq : buildProperty U reg makeName makeRef (S fuel) t =
    buildFields U reg makeName makeRef fuel (buildProperty U reg makeName makeRef fuel)
      post (ps ∪ properties1, required1)).
  { cbn [buildProperty]. unfold reflect.Fields. rewrite Hk, ret_bind, Hfields.
    rewrite buildFields_app, Hpre, ret_bind. cbn [buildFields].
    rewrite buildField_exported, Hanon, Hemb by done. done. }
  split; [exact Heq|].
  intros properties required Hres. rewrite Heq in Hres.
  apply buildFields_dom in Hres. simpl in Hres. rewrite dom_union in Hres. set_solver.
Qed.

Lemma embedded_fields_spliced_witness :
  ∃ p q,
    buildProperty fieldsU types.ptMapping (λ t, "") (λ s, s) 4 3 =
      Ok (<["Age" := q]> (<["alias" := p]>
            (<["ID" := Property.mk 0 "integer" "int32" "" "" "" [] None None]> ∅)),
          ["Age"]).
Proof.
  destruct (embedded_fields_spliced fieldsU types.ptMapping (λ t, "") (λ s, s) 3 3
              [] [reflect.mkField "Login" 1 [("json", "alias,omitempty")] false;
                  reflect.mkField "Secret" 1 [("json", "-")] false;
                  reflect.mkField "Age" 0 [("json", ",omitempty"); ("required", "")] false]
              (reflect.mkField "Base" 2 [] true)
              ∅ (<["ID" := Property.mk 0 "integer" "int32" "" "" "" [] None None]> ∅)
              [] ["ID"]) as [Heq _].
  { done. }
  { done. }
  { exists "B". by vm_compute. }
  { done. }
  { done. }
  { by vm_compute. }
  rewrite Heq. eexists _, _. vm_compute. reflexivity.
Defined.

(** C7, the claim as stated fails on an embedded field whose name is not
    exported: the visibility test comes first in the loop and passes the
    field over, so [Inner], which embeds [base], is given the empty mapping
    although the mapping of [base] holds the key [ID]. *)
Lemma unexported_embedded_field_not_spliced :
  reflect.kind embeddedU 4 = reflect.Struct ∧
  reflect.rfields (embeddedU 4) = [reflect.mkField "base" 3 [] true] ∧
  buildProperty embeddedU types.ptMapping (nameByString embeddedU) refTo 3 3 =
    Ok ({[ "ID" := Property.mk 0 "integer" "int32" "" "" "" [] None None ]}, []) ∧
  buildProperty embeddedU types.ptMapping (nameByString embeddedU) refTo 4 4 = Ok (∅, []).
Proof.
  split; [reflexivity|]. split; [reflexivity|].
  split; vm_compute; reflexivity.
Qed.

(** C9: every name in the required list that the field enumerator returns is
    a key of the mapping it returns. *)
Theorem required_names_are_keys (U : reflect.Universe) (reg : types.Registry)
    (makeName : reflect.Type_ → string) (makeRef : string → string)
    (fuel : nat) (t : reflect.Type_)
    (properties : gmap string Property) (required : list string) :
  buildProperty U reg makeName makeRef fuel t = Ok (properties, required) →
  ∀ name, name ∈ required → is_Some (properties !! name).
Proof.
  destruct fuel as [|fuel]; [done|]. simpl. intros H name Hn.
  bind_inv H. apply elem_of_dom.
  eapply (buildFields_required _ _ _ _ _ _ _ _ _ H); [|exact Hn].
  simpl. intros n Hin. by apply elem_of_nil in Hin.
Qed.

Lemma required_names_are_keys_witness :
  ∃ properties,
    buildProperty fieldsU types.ptMapping (λ t, "") (λ s, s) 4 3 = Ok (properties, ["Age"]) ∧
    is_Some (properties !! "Age").
Proof.
  eexists. split; [vm_compute; reflexivity|].
  eapply (required_names_are_keys fieldsU types.ptMapping (λ t, "") (λ s, s) 4 3 _ ["Age"]).
  - vm_compute. reflexivity.
  - apply list_elem_of_In. simpl. tauto.
Defined.

(** C10: for a record with an exported embedded field whose type is a
    pointer, the field enumerator, called on the pointer type as it is,
    panics, and the enumeration of the record returns no result under any
    stack bound; it panics once the fields before the embedded one are
    through. *)
Theorem embedded_pointer_panics (U : reflect.Universe) (reg : types.Registry)
    (makeName : reflect.Type_ → string) (makeRef : string → string)
    (t : reflect.Type_) (pre post : list reflect.StructField)
    (field : reflect.StructField) :
  reflect.kind U t = reflect.Struct →
  reflect.rfields (U t) = (pre ++ field :: post)%list →
  exportedField field →
  reflect.Anonymous field = true →
  reflect.kind U (reflect.FType field) = reflect.Ptr →
  (∀ fuel, buildProperty U reg makeName makeRef (S fuel) (reflect.FType field) = Panic) ∧
  (∀ fuel, ¬ returns (buildProperty U reg makeName makeRef fuel t)) ∧
  (∀ fuel st,
     buildFields U reg makeName makeRef (S fuel)
       (buildProperty U reg makeName makeRef (S fuel)) pre (∅, []) = Ok st →
     buildProperty U reg makeName makeRef (S (S fuel)) t = Panic).
Proof.
  intros Hk Hfields Hexp Hanon Hptr.
  assert (Hpanic : ∀ fuel,
    buildProperty U reg makeName makeRef (S fuel) (reflect.FType field) = Panic).
  { intros fuel. apply buildProperty_not_struct. by rewrite Hptr. }
  split; [exact Hpanic|]. split.
  - intros [|fuel] [[properties required] H]; [done|].
    simpl in H. unfold reflect.Fields in H. rewrite Hk in H. simpl in H.
    eapply (buildFields_each _ _ _ _ _ _ _ _ _ field) in H as (s & s' & H);
      [|rewrite Hfields; set_solver].
    rewrite buildField_exported, Hanon in H by done.
    destruct fuel as [|fuel]; [done|]. by rewrite Hpanic in H.
  - intros fuel st Hpre.
    pose proof (Hpanic fuel) as Hp.
    change (buildProperty U reg makeName makeRef (S (S fuel)) t) with
      (reflect.Fields U t ≫=
         λ fields, buildFields U reg makeName makeRef (S fuel)
                     (buildProperty U reg makeName makeRef (S fuel)) fields (∅, [])).
    unfold reflect.Fields. rewrite Hk, ret_bind, Hfields.
    rewrite buildFields_app, Hpre, ret_bind. cbn [buildFields].
    rewrite buildField_exported, Hanon, Hp by done. done.
Qed.

Lemma embedded_pointer_panics_witness :
  buildProperty fieldsU types.ptMapping (λ t, "") (λ s, s) 2 5 = Panic.
Proof.
  refine (proj2 (proj2 (embedded_pointer_panics fieldsU types.ptMapping (λ t, "") (λ s, s)
            5 [] [reflect.mkField "Val" 0 [] false] (reflect.mkField "Base" 4 [] true)
            _ _ _ _ _)) 0 (∅, []) _); try done.
  exists "B". by vm_compute.
Defined.

(** ** The closure loop *)

Lemma chain_ind (P : Property → Prop) :
  (∀ p, (∀ q, Property.AdditionalProperties p = Some q → P q) → P p) →
  ∀ p, P p.
Proof.
  intros H. fix IH 1. intros p. apply H.
  destruct p as [? ? ? ? ? ? ? items ap]. simpl.
  destruct ap as [q'|]; intros q [= <-]. apply IH.
Qed.

Section LoopFacts.
Context (U : reflect.Universe) (reg : types.Registry).
Context (makeName : reflect.Type_ → string) (makeRef : string → string).

#[local] Abbreviation defineObject' := (defineObject U reg makeName makeRef).
#[local] Abbreviation visitNode' := (visitNode U reg makeName makeRef).
#[local] Abbreviation visitAll' := (visitAll U reg makeName makeRef).
#[local] Abbreviation step' := (step U reg makeName makeRef).

Lemma defineObject_struct fuel t o :
  reflect.kind U t = reflect.Struct →
  defineObject' fuel t = Ok o →
  Object.Name o = makeName t.
Proof.
  destruct fuel as [|fuel]; [done|]. rewrite defineObject_S. intros Hk.
  rewrite Hk. rewrite bool_decide_false by done.
  intros H. bind_inv H. destruct a as [properties required]. by injection H as <-.
Qed.

Lemma visitAll_app fuel qs1 qs2 st :
  visitAll' fuel (qs1 ++ qs2) st = visitAll' fuel qs1 st ≫= visitAll' fuel qs2.
Proof.
  revert st; induction qs1 as [|q qs1 IH]; intros st; simpl; [done|].
  destruct (visitNode' fuel q st) as [st'| |]; simpl; [apply IH|done..].
Qed.

Lemma visitChain_all fuel p st :
  visitChain U reg makeName makeRef fuel p st = visitAll' fuel (chain p) st.
Proof.
  revert st. induction p as [p IH] using chain_ind. intros st.
  destruct p as [? ? ? ? ? ? ? items ap]. simpl in *.
  destruct (visitNode' fuel _ st) as [st'| |]; simpl; [|done..].
  destruct ap as [q|]; [|done]. by apply IH.
Qed.

Lemma visitProps_all fuel ps st :
  visitProps U reg makeName makeRef fuel ps st = visitAll' fuel (ps ≫= chain) st.
Proof.
  revert st; induction ps as [|p ps IH]; intros st; [done|].
  cbn [visitProps mbind list_bind]. rewrite visitAll_app, visitChain_all.
  destruct (visitAll' fuel (chain p) st) as [st'| |]; simpl; [apply IH|done..].
Qed.

(** One turn of the loop body: nothing changes, or the object of a struct
    type that is not yet in the map is put under its name. *)
Lemma visitNode_Ok fuel q m d m' d' :
  visitNode' fuel q (m, d) = Ok (m', d') →
  (m' = m ∧ d' = d ∧
   (reflect.kind U (Property.GoType q) = reflect.Struct →
    makeName (Property.GoType q) ∈ dom m)) ∨
  (reflect.kind U (Property.GoType q) = reflect.Struct ∧
   m !! makeName (Property.GoType q) = None ∧
   ∃ child, defineObject' fuel (Property.GoType q) = Ok child ∧
            Object.Name child = makeName (Property.GoType q) ∧
            m' = <[makeName (Property.GoType q) := child]> m ∧ d' = true).
Proof.
  unfold visitNode. simpl. case_bool_decide as Hk.
  - destruct (m !! makeName (Property.GoType q)) as [o|] eqn:Hm.
    + intros [= <- <-]. left. repeat split. intros _. apply elem_of_dom. eauto.
    + intros H. bind_inv H. injection H as <- <-. right.
      pose proof (defineObject_struct _ _ _ Hk Ha) as Hn.
      repeat split; [done|]. exists a. by rewrite Hn.
  - intros [= <- <-]. left. repeat split. intros ?. done.
Qed.

Lemma visitAll_Ok fuel qs m d m' d' :
  visitAll' fuel qs (m, d) = Ok (m', d') →
  m ⊆ m' ∧
  ((m' = m ∧ d' = d ∧
    ∀ q, q ∈ qs → reflect.kind U (Property.GoType q) = reflect.Struct →
         makeName (Property.GoType q) ∈ dom m) ∨
   (d' = true ∧ dom m ⊂ dom m')) ∧
  (∀ k o, m' !! k = Some o →
     m !! k = Some o ∨
     ∃ q, q ∈ qs ∧ reflect.kind U (Property.GoType q) = reflect.Struct ∧
          k = makeName (Property.GoType q) ∧
          defineObject' fuel (Property.GoType q) = Ok o ∧ Object.Name o = k).
Proof.
  revert m d; induction qs as [|q qs IH]; intros m d; simpl.
  - intros [= <- <-]. split; [done|]. split; [|by left].
    left. repeat split. intros q Hq. by apply elem_of_nil in Hq.
  - intros H. bind_inv H. destruct a as [m1 d1].
    apply IH in H as (Hsub & Hcase & Hnew).
    apply visitNode_Ok in Ha
      as [(-> & -> & Hq)|(Hk & Hnone & child & Hchild & Hname & -> & ->)].
    + split; [done|]. split.
      * destruct Hcase as [(-> & -> & Hqs)|?]; [left|by right].
        repeat split. intros q' [->|Hq']%elem_of_cons; auto.
      * intros k o [?|(q' & Hq' & ?)]%Hnew; [by left|right].
        exists q'. split; [by apply elem_of_cons; right|done].
    + assert (Hins : m ⊆ <[makeName (Property.GoType q) := child]> m)
        by (by apply insert_subseteq).
      assert (Hdom : dom m ⊂ dom (<[makeName (Property.GoType q) := child]> m)).
      { rewrite dom_insert_L. apply not_elem_of_dom in Hnone. set_solver. }
      split; [by etrans|]. split.
      * right. destruct Hcase as [(-> & -> & _)|[-> Hgrow]]; [done|].
        split; [done|]. apply subseteq_dom in Hsub.
        eapply strict_trans_l; [exact Hdom|]. by apply strict_include.
      * intros k o [Hk'|(q' & Hq' & ?)]%Hnew.
        -- destruct (decide (k = makeName (Property.GoType q))) as [->|Hne].
           ++ rewrite lookup_insert_eq in Hk'. injection Hk' as <-. right.
              exists q. split; [by apply elem_of_cons; left|done].
           ++ rewrite lookup_insert_ne in Hk' by done. by left.
        -- right. exists q'. split; [by apply elem_of_cons; right|done].
Qed.
End LoopFacts.

Section ClosureFacts.
Context (U : reflect.Universe) (reg : types.Registry).
Context (makeName : reflect.Type_ → string) (makeRef : string → string).

#[local] Abbreviation defineObject' := (defineObject U reg makeName makeRef).
#[local] Abbreviation step' := (step U reg makeName makeRef).
#[local] Abbreviation invariant' := (invariant U reg makeName makeRef).
#[local] Abbreviation Reach' := (Reach U reg makeName makeRef).
#[local] Abbreviation settled' := (settled U makeName).

Lemma invariant_initial obj0 :
  invariant' obj0 (initial {[Object.Name obj0 := obj0]}).
Proof.
  split; [done|]. split; [|split]; simpl.
  - intros _ k d Hk. by apply elem_of_empty in Hk.
  - intros k o [<- <-]%lookup_singleton_Some. split; [constructor|done].
  - apply lookup_singleton_eq.
Qed.

Lemma invariant_step fuel obj0 c c' :
  invariant' obj0 c → step' fuel c c' → invariant' obj0 c'.
Proof.
  intros (I1 & I2 & I3 & I4) Hstep.
  destruct Hstep as [c k d ps m' dirty' Hk Hd Hps Hvisit|c Hseen Hdirty].
  - rewrite visitProps_all in Hvisit.
    apply visitAll_Ok in Hvisit as (Hsub & Hcase & Hnew).
    assert (Hmem : ∀ q, q ∈ ps ≫= chain ↔ ∃ p, p ∈ propertiesOf d ∧ q ∈ chain p).
    { intros q. rewrite list_elem_of_bind. split; intros (p & ? & ?); exists p.
      - split; [by rewrite <- Hps|done].
      - split; [done|by rewrite Hps]. }
    split; [|split; [|split]]; simpl.
    + intros ->. destruct Hcase as [(-> & Hdc & _)|[? _]]; [|done]. by apply I1.
    + intros -> k0 d0 Hk0 Hd0 p q Hp Hq Hkind.
      destruct Hcase as [(-> & Hdc & Hqs)|[? _]]; [|done].
      apply elem_of_union in Hk0 as [->%elem_of_singleton|Hk0].
      * rewrite Hd in Hd0. injection Hd0 as <-.
        apply Hqs; [|done]. apply Hmem. eauto.
      * by eapply (I2 (eq_sym Hdc) k0 d0).
    + intros k0 o Hk0.
      destruct (Hnew _ _ Hk0)
        as [Hold|(q & (p & Hp & Hq)%Hmem & Hkind & -> & Hdef & Hname)].
      * by apply I3.
      * split; [|done].
        eapply Reach_step; [|exact Hp|exact Hq|exact Hkind|exact Hdef].
        apply (I3 _ _ Hd).
    + by eapply lookup_weaken.
  - split; [done|]. split; [|split]; simpl; [|done..].
    intros _ k d Hk. by apply elem_of_empty in Hk.
Qed.

Lemma invariant_rtc fuel obj0 c c' :
  invariant' obj0 c → rtc (step' fuel) c c' → invariant' obj0 c'.
Proof. intros Hc Hrtc. induction Hrtc; eauto using invariant_step. Qed.

(** When the loop is left, the check of the loop holds of every entry. *)
Lemma final_settled obj0 c k d :
  invariant' obj0 c → final c → objMap c !! k = Some d → settled' (objMap c) d.
Proof.
  intros (I1 & I2 & _) [Hseen Hdirty] Hk.
  apply (I2 Hdirty k d); [|done].
  apply Hseen. rewrite <- (I1 Hdirty). apply elem_of_dom. eauto.
Qed.

Lemma define_run_invariant fuel t g :
  define_run U reg makeName makeRef fuel t g →
  ∃ obj c, defineObject' fuel t = Ok obj ∧ invariant' obj c ∧ final c ∧ objMap c = g.
Proof.
  intros (obj & c & Hobj & Hrtc & Hfin & Hg). exists obj, c.
  split; [done|]. split; [|done].
  eapply invariant_rtc; [apply invariant_initial|exact Hrtc].
Qed.

(** What the loop does reach: in a graph it returns, every property of every
    entry, and every property after it along [AdditionalProperties], whose
    [GoType] is a struct has the name of that struct among the keys. *)
Lemma define_run_settled fuel t g k d :
  define_run U reg makeName makeRef fuel t g →
  g !! k = Some d → settled' g d.
Proof.
  intros (obj & c & _ & Hinv & Hfin & <-)%define_run_invariant Hk.
  by eapply final_settled.
Qed.
End ClosureFacts.

(** ** Two runs of the closure loop agree *)

Section Determinism.
Context (U : reflect.Universe) (reg : types.Registry).
Context (makeName : reflect.Type_ → string) (makeRef : string → string).

#[local] Abbreviation defineObject' := (defineObject U reg makeName makeRef).
#[local] Abbreviation invariant' := (invariant U reg makeName makeRef).
#[local] Abbreviation Reach' := (Reach U reg makeName makeRef).

(** An object has no properties unless it is the object of a struct type. *)
Lemma defineObject_shape fuel t o :
  defineObject' fuel t = Ok o →
  Object.Properties o = ∅ ∨
  ∃ R fuel', reflect.kind U R = reflect.Struct ∧ defineObject' fuel' R = Ok o.
Proof.
  revert t; induction fuel as [|fuel IH]; intros t; [done|].
  intros H. pose proof H as H0. rewrite defineObject_S in H.
  case_bool_decide as Hptr.
  - bind_inv H. by apply IH in H.
  - destruct (reflect.kind U t) eqn:Hk;
      try (bind_inv H; injection H as <-; by left);
      try (bind_inv H; bind_inv H; injection H as <-; by left).
    right. by exists t, (S fuel).
Qed.

Lemma Reach_root_only obj0 k d :
  Object.Properties obj0 = ∅ → Reach' obj0 k d → k = Object.Name obj0 ∧ d = obj0.
Proof.
  intros Hempty. induction 1 as [|k d p q fuel child _ [_ ->] Hp]; [done|].
  unfold propertiesOf in Hp. rewrite Hempty, map_to_list_empty in Hp.
  by apply elem_of_nil in Hp.
Qed.

Lemma Reach_struct obj0 k d :
  (∃ R fuel', reflect.kind U R = reflect.Struct ∧ defineObject' fuel' R = Ok obj0) →
  Reach' obj0 k d →
  ∃ t fuel, reflect.kind U t = reflect.Struct ∧ k = makeName t ∧ defineObject' fuel t = Ok d.
Proof.
  intros (R & fuel' & HR & Hobj0). destruct 1 as [|k d p q fuel child _ _ _ Hk Hdef].
  - exists R, fuel'. repeat split; [done| |done]. by eapply defineObject_struct.
  - exists (Property.GoType q), fuel. by repeat split.
Qed.

Context (makeName_inj : ∀ t1 t2,
  reflect.kind U t1 = reflect.Struct → reflect.kind U t2 = reflect.Struct →
  makeName t1 = makeName t2 → t1 = t2).

Lemma Reach_functional fuel0 root obj0 k d d' :
  defineObject' fuel0 root = Ok obj0 →
  Reach' obj0 k d → Reach' obj0 k d' → d = d'.
Proof.
  intros [Hempty|Hstruct]%defineObject_shape Hd Hd'.
  - apply (Reach_root_only _ _ _ Hempty) in Hd as [_ ->].
    by apply (Reach_root_only _ _ _ Hempty) in Hd' as [_ ->].
  - apply (Reach_struct _ _ _ Hstruct) in Hd as (t & fuel & Hk & -> & Hdef).
    apply (Reach_struct _ _ _ Hstruct) in Hd' as (t' & fuel' & Hk' & Heq & Hdef').
    apply makeName_inj in Heq as ->; [|done..].
    by eapply defineObject_agree.
Qed.

(** A map on which the loop has come to rest holds every entry of [Reach]. *)
Lemma Reach_complete fuel0 root obj0 c k d :
  defineObject' fuel0 root = Ok obj0 →
  invariant' obj0 c → final c →
  Reach' obj0 k d → objMap c !! k = Some d.
Proof.
  intros Hroot Hinv Hfin.
  induction 1 as [|k d p q fuel child Hreach IH Hp Hq Hk Hdef].
  - apply Hinv.
  - pose proof (final_settled _ _ _ _ _ _ _ _ Hinv Hfin IH p q Hp Hq Hk) as Hin.
    apply elem_of_dom in Hin as [o Ho]. rewrite Ho. f_equal.
    destruct Hinv as (_ & _ & I3 & _). destruct (I3 _ _ Ho) as [Hreach' _].
    eapply Reach_functional; [exact Hroot|exact Hreach'|].
    eapply Reach_step; [exact Hreach|exact Hp|exact Hq|exact Hk|exact Hdef].
Qed.

Lemma define_run_agree fuel1 fuel2 root g1 g2 :
  define_run U reg makeName makeRef fuel1 root g1 →
  define_run U reg makeName makeRef fuel2 root g2 →
  g1 = g2.
Proof.
  intros (obj1 & c1 & Hobj1 & Hinv1 & Hfin1 & <-)%define_run_invariant.
  intros (obj2 & c2 & Hobj2 & Hinv2 & Hfin2 & <-)%define_run_invariant.
  assert (obj1 = obj2) as <- by (by eapply defineObject_agree).
  assert (Hle : ∀ c c', invariant' obj1 c → final c → invariant' obj1 c' → final c' →
            ∀ k d, objMap c !! k = Some d → objMap c' !! k = Some d).
  { intros c c' Hinv Hfin Hinv' Hfin' k d Hk.
    eapply Reach_complete; [exact Hobj1|exact Hinv'|exact Hfin'|].
    destruct Hinv as (_ & _ & I3 & _). by apply I3. }
  apply map_eq. intros k.
  destruct (objMap c1 !! k) as [d|] eqn:H1.
  - symmetry. by eapply (Hle c1 c2).
  - destruct (objMap c2 !! k) as [d|] eqn:H2; [|done].
    apply (Hle c2 c1) in H2; [congruence|done..].
Qed.
End Determinism.

(** ** The executable schedules are runs of the loop *)

Section Schedules.
Context (U : reflect.Universe) (reg : types.Registry).
Context (makeName : reflect.Type_ → string) (makeRef : string → string).

#[local] Abbreviation step' := (step U reg makeName makeRef).
#[local] Abbreviation rangeObjects' := (rangeObjects U reg makeName makeRef).
#[local] Abbreviation defineLoop' := (defineLoop U reg makeName makeRef).

Lemma rangeProperties_Ok sched fuel o m d m' d' :
  rangeProperties U reg makeName makeRef sched fuel o (m, d) = Ok (m', d') →
  m ⊆ m' ∧
  ((m' = m ∧ d' = d) ∨ (d' = true ∧ dom m ⊂ dom m')) ∧
  (∀ k, k ∈ dom m' → k ∈ dom m ∨ ∃ t, reflect.kind U t = reflect.Struct ∧ k = makeName t).
Proof.
  unfold rangeProperties. rewrite visitProps_all.
  intros (Hsub & Hcase & Hnew)%visitAll_Ok. split; [done|]. split.
  - destruct Hcase as [(-> & -> & _)|?]; [by left|by right].
  - intros k [o' Hk]%elem_of_dom.
    destruct (Hnew _ _ Hk) as [Hold|(q & _ & Hkind & -> & _)].
    + left. apply elem_of_dom. eauto.
    + right. eauto.
Qed.

Lemma rangeObjects_Ok sched fuel keys m d m' d' :
  rangeObjects' sched fuel keys (m, d) = Ok (m', d') →
  m ⊆ m' ∧
  ((m' = m ∧ d' = d) ∨ (d' = true ∧ dom m ⊂ dom m')) ∧
  (∀ k, k ∈ dom m' → k ∈ dom m ∨ ∃ t, reflect.kind U t = reflect.Struct ∧ k = makeName t).
Proof.
  revert m d; induction keys as [|k keys IH]; intros m d; simpl.
  - intros [= <- <-]. split; [done|]. split; [by left|]. intros k Hk. by left.
  - destruct (m !! k) as [o|]; [|apply IH].
    intros H. bind_inv H. destruct a as [m1 d1].
    apply rangeProperties_Ok in Ha as (Hsub1 & Hcase1 & Hnew1).
    apply IH in H as (Hsub & Hcase & Hnew).
    split; [by etrans|]. split.
    + destruct Hcase1 as [[-> ->]|[-> Hgrow1]]; [done|]. right.
      destruct Hcase as [(-> & -> )|[-> Hgrow]]; [done|].
      split; [done|]. eapply strict_trans_l; [exact Hgrow1|]. by apply subseteq_dom.
    + intros k' [Hk'|?]%Hnew; [|by right]. by apply Hnew1.
Qed.

Lemma rangeObjects_steps sched fuel s keys seen0 m d m' d' :
  fair sched →
  NoDup keys →
  (∀ k, k ∈ keys → k ∉ seen0) →
  (∀ k, k ∈ keys → k ∈ dom m) →
  rangeObjects' sched fuel keys (m, d) = Ok (m', d') →
  rtc (step' fuel) (mkConfig s seen0 m d) (mkConfig s (list_to_set keys ∪ seen0) m' d').
Proof.
  intros [_ Hprops]. revert seen0 m d.
  induction keys as [|k keys IH]; intros seen0 m d Hnodup Hfresh Hdom; simpl.
  - intros [= <- <-]. rewrite (left_id_L ∅ (∪)). apply rtc_refl.
  - apply NoDup_cons in Hnodup as [Hk Hnodup].
    assert (k ∈ dom m) as [o Ho]%elem_of_dom by (apply Hdom; by apply elem_of_cons; left).
    rewrite Ho. intros H. bind_inv H. destruct a as [m1 d1].
    pose proof (rangeProperties_Ok _ _ _ _ _ _ _ Ha) as (Hsub & _ & _).
    eapply rtc_l.
    + apply (step_visit U reg makeName makeRef fuel (mkConfig s seen0 m d) k o
               (propOrder sched (map_to_list (Object.Properties o)).*2) m1 d1).
      * apply Hfresh. by apply elem_of_cons; left.
      * exact Ho.
      * apply Hprops.
      * exact Ha.
    + simpl.
      replace ({[k]} ∪ list_to_set keys ∪ seen0)
        with (list_to_set keys ∪ ({[k]} ∪ seen0) : gset string) by set_solver.
      apply IH; [done| | |done].
      * intros k' Hk' [->%elem_of_singleton|Hin]%elem_of_union; [done|].
        eapply Hfresh; [|exact Hin]. by apply elem_of_cons; right.
      * intros k' Hk'. eapply (subseteq_dom _ _ Hsub). apply Hdom.
        by apply elem_of_cons; right.
Qed.

Lemma defineLoop_steps sched passes fuel m g :
  fair sched →
  defineLoop' sched passes fuel m = Ok g →
  ∃ c, rtc (step' fuel) (initial m) c ∧ final c ∧ objMap c = g.
Proof.
  intros Hfair. revert m; induction passes as [|passes IH]; intros m; [done|].
  simpl. intros H. bind_inv H. destruct a as [m' d'].
  assert (Hkeys : keyOrder sched (map_to_list m).*1 ≡ₚ (map_to_list m).*1)
    by apply Hfair.
  assert (Hset : dom m ⊆ list_to_set (keyOrder sched (map_to_list m).*1) ∪ ∅).
  { intros k [o Hk]%elem_of_dom. apply elem_of_union; left.
    apply elem_of_list_to_set. rewrite Hkeys.
    apply list_elem_of_fmap. exists (k, o). split; [done|].
    by apply elem_of_map_to_list. }
  apply (rangeObjects_steps sched fuel (dom m) _ ∅) in Ha; [|done| | |].
  - destruct d'.
    + apply IH in H as (c & Hrtc & Hfin & Hg). exists c. split; [|done].
      etrans; [exact Ha|]. eapply rtc_l; [|exact Hrtc].
      by apply (step_pass U reg makeName makeRef fuel (mkConfig _ _ _ _)).
    + injection H as <-. eexists. split; [exact Ha|]. by split.
  - rewrite Hkeys. apply NoDup_fst_map_to_list.
  - intros k _. apply not_elem_of_empty.
  - intros k Hk. rewrite Hkeys in Hk.
    apply list_elem_of_fmap in Hk as ([k' o] & -> & Hk).
    apply elem_of_map_to_list in Hk. apply elem_of_dom. eauto.
Qed.

(** What an executable fair schedule returns, the loop may return. *)
Lemma define_define_run sched passes fuel t g :
  fair sched →
  define U reg makeName makeRef sched passes fuel t = Ok g →
  define_run U reg makeName makeRef fuel t g.
Proof.
  intros Hfair H. unfold define in H. bind_inv H.
  apply defineLoop_steps in H as (c & Hrtc & Hfin & Hg); [|done].
  by exists a, c.
Qed.
End Schedules.

Lemma fair_inOrder : fair inOrder.
Proof. by split. Qed.

Lemma fair_propsReversed : fair propsReversed.
Proof. split; [done|]. intros ps. apply reverse_Permutation. Qed.

Lemma fair_keysReversed : fair keysReversed.
Proof. split; [|done]. intros keys. apply reverse_Permutation. Qed.

(** C8, as amended: where no two struct types have the same derived name,
    any two runs of the closure loop for the same root type and the same
    registry, whatever the order in which the working map and the properties
    are ranged over and whatever the stack bounds, return the same graph: the
    same keys, and under each key the same object. *)
Theorem define_runs_agree (U : reflect.Universe) (reg : types.Registry)
    (makeName : reflect.Type_ → string) (makeRef : string → string)
    (fuel1 fuel2 : nat) (root : reflect.Type_) (g1 g2 : Graph) :
  (∀ t1 t2, reflect.kind U t1 = reflect.Struct → reflect.kind U t2 = reflect.Struct →
            makeName t1 = makeName t2 → t1 = t2) →
  define_run U reg makeName makeRef fuel1 root g1 →
  define_run U reg makeName makeRef fuel2 root g2 →
  g1 = g2.
Proof. intros Hinj. by apply define_run_agree. Qed.

Lemma nodeU_names_differ t1 t2 :
  reflect.kind nodeU t1 = reflect.Struct → reflect.kind nodeU t2 = reflect.Struct →
  nameByString nodeU t1 = nameByString nodeU t2 → t1 = t2.
Proof.
  destruct t1 as [|[|[|[|[|t1]]]]]; try done;
    destruct t2 as [|[|[|[|[|t2]]]]]; done.
Qed.

Lemma define_runs_agree_witness :
  ∃ g1 g2,
    define nodeU types.ptMapping (nameByString nodeU) refTo inOrder 2 6 1 = Ok g1 ∧
    define nodeU types.ptMapping (nameByString nodeU) refTo propsReversed 3 7 1 = Ok g2 ∧
    g1 = g2.
Proof.
  destruct (define nodeU types.ptMapping (nameByString nodeU) refTo inOrder 2 6 1)
    as [g1| |] eqn:H1; [|by vm_compute in H1..].
  destruct (define nodeU types.ptMapping (nameByString nodeU) refTo propsReversed 3 7 1)
    as [g2| |] eqn:H2; [|by vm_compute in H2..].
  exists g1, g2. split; [done|]. split; [done|].
  apply (define_runs_agree nodeU types.ptMapping (nameByString nodeU) refTo 6 7 1 g1 g2).
  - exact nodeU_names_differ.
  - exact (define_define_run _ _ _ _ _ _ _ _ _ fair_inOrder H1).
  - exact (define_define_run _ _ _ _ _ _ _ _ _ fair_propsReversed H2).
Defined.

(** C8, the claim as stated fails where two struct types have the same
    derived name: [App] has a field of type [A] and one of type [B], whose
    fields are of two types named [conf.Settings]; the entry under that name
    is the object of the one that is found first, and which of [A] and [B]
    the range over the working map yields first is open. *)
Lemma define_run_depends_on_order :
  ∃ g1 g2,
    define_run clashU types.ptMapping (nameByString clashU) refTo 6 6 g1 ∧
    define_run clashU types.ptMapping (nameByString clashU) refTo 6 6 g2 ∧
    g1 ≠ g2.
Proof.
  destruct (define clashU types.ptMapping (nameByString clashU) refTo inOrder 4 6 6)
    as [g1| |] eqn:H1; [|by vm_compute in H1..].
  destruct (define clashU types.ptMapping (nameByString clashU) refTo keysReversed 4 6 6)
    as [g2| |] eqn:H2; [|by vm_compute in H2..].
  exists g1, g2.
  split; [exact (define_define_run _ _ _ _ _ _ _ _ _ fair_inOrder H1)|].
  split; [exact (define_define_run _ _ _ _ _ _ _ _ _ fair_keysReversed H2)|].
  intros Heq. apply (f_equal settingsHavePort) in Heq.
  vm_compute in H1, H2.
  injection H1 as <-. injection H2 as <-. by vm_compute in Heq.
Qed.

(** ** A reference that the loop does not follow *)

Lemma defineObject_Outer makeName makeRef :
  defineObject nestedU types.ptMapping makeName makeRef 6 4 = Ok (outerObject makeName makeRef).
Proof. by vm_compute. Qed.

Lemma Reach_Outer makeName makeRef k d :
  Reach nestedU types.ptMapping makeName makeRef (outerObject makeName makeRef) k d →
  k = makeName 4 ∧ d = outerObject makeName makeRef.
Proof.
  induction 1 as [|k d p q fuel child _ [_ ->] Hp Hq Hk _]; [done|].
  unfold propertiesOf, outerObject in Hp. simpl in Hp.
  rewrite map_to_list_singleton in Hp. simpl in Hp.
  apply list_elem_of_singleton in Hp as ->.
  simpl in Hq. apply list_elem_of_singleton in Hq as ->. done.
Qed.

(** C2, the code at a failing input: for [Outer], a struct with the field
    [Grid [][]Inner], every run of the closure loop returns the graph that
    holds the object of [Outer] alone; its property [Grid] carries, two
    [Items] down, the reference to [Inner] by name, and the name of [Inner]
    is not a key of the graph. *)
Theorem nested_slice_reference_dangles
    (makeName : reflect.Type_ → string) (makeRef : string → string)
    (fuel : nat) (g : Graph) :
  makeName 1 ≠ makeName 4 →
  define_run nestedU types.ptMapping makeName makeRef fuel 4 g →
  g = {[ makeName 4 := outerObject makeName makeRef ]} ∧
  Object.Properties (outerObject makeName makeRef) !! "Grid" =
    Some (gridProperty makeName makeRef) ∧
  innerReference makeName makeRef ∈ nested (gridProperty makeName makeRef) ∧
  refersTo nestedU makeName makeRef (innerReference makeName makeRef) (makeName 1) ∧
  g !! makeName 1 = None.
Proof.
  intros Hne (obj & c & Hobj & (_ & _ & I3 & I4) & _ & <-)%define_run_invariant.
  assert (obj = outerObject makeName makeRef) as ->.
  { eapply defineObject_agree; [exact Hobj|apply defineObject_Outer]. }
  assert (Hg : objMap c = {[ makeName 4 := outerObject makeName makeRef ]}).
  { apply map_eq. intros k. destruct (decide (k = makeName 4)) as [->|Hk].
    - rewrite lookup_singleton_eq. exact I4.
    - rewrite lookup_singleton_ne by done.
      destruct (objMap c !! k) as [d|] eqn:Hd; [|done].
      apply I3 in Hd as [[-> _]%Reach_Outer _]. done. }
  rewrite Hg. repeat split.
  - unfold nested, gridProperty. simpl. set_solver.
  - by apply lookup_singleton_ne.
Qed.

Lemma nested_slice_reference_dangles_witness :
  ∃ g,
    define nestedU types.ptMapping (nameByString nestedU) refTo inOrder 1 6 4 = Ok g ∧
    g = {[ "main.Outer" := outerObject (nameByString nestedU) refTo ]} ∧
    g !! "main.Inner" = None.
Proof.
  destruct (define nestedU types.ptMapping (nameByString nestedU) refTo inOrder 1 6 4)
    as [g| |] eqn:H; [|by vm_compute in H..].
  exists g. split; [done|].
  destruct (nested_slice_reference_dangles (nameByString nestedU) refTo 6 g)
    as (Hg & _ & _ & _ & Hinner).
  - done.
  - exact (define_define_run _ _ _ _ _ _ _ _ _ fair_inOrder H).
  - by split.
Defined.

(** ** The closure loop comes to an end *)

Section Termination.
Context (U : reflect.Universe) (reg : types.Registry).
Context (makeName : reflect.Type_ → string) (makeRef : string → string).
Context (names : gset string).
Context (names_struct : ∀ t, reflect.kind U t = reflect.Struct → makeName t ∈ names).

#[local] Abbreviation defineObject' := (defineObject U reg makeName makeRef).
#[local] Abbreviation step' := (step U reg makeName makeRef).

Lemma size_difference_grow (X Y : gset string) :
  X ⊂ Y → Y ⊆ names → size (names ∖ Y) < size (names ∖ X).
Proof.
  intros [Hsub Hne] HY. apply subset_size. split; [set_solver|].
  intros Hback. apply Hne. intros y Hy.
  destruct (decide (y ∈ X)) as [|Hn]; [done|].
  assert (y ∈ names ∖ X) as Hin by set_solver.
  apply Hback in Hin. set_solver.
Qed.

Lemma size_difference_le (X Y : gset string) :
  X ⊆ names → (size (X ∖ Y) ≤ size names)%nat.
Proof. intros HX. apply subseteq_size. set_solver. Qed.

(** Every step of the loop lowers the measure. *)
Lemma step_measure fuel c c' :
  dom (objMap c) ⊆ names →
  step' fuel c c' →
  dom (objMap c') ⊆ names ∧ measure names c' < measure names c.
Proof.
  intros Hdom Hstep.
  destruct Hstep as [c k d ps m' dirty' Hk Hd Hps Hvisit|c Hseen Hdirty].
  - rewrite visitProps_all in Hvisit.
    apply visitAll_Ok in Hvisit as (Hsub & Hcase & Hnew).
    assert (Hdom' : dom m' ⊆ names).
    { intros k' [o Hk']%elem_of_dom.
      destruct (Hnew _ _ Hk') as [Hold|(q & _ & Hkind & -> & _)].
      - apply Hdom. apply elem_of_dom. eauto.
      - by apply names_struct. }
    split; [done|]. unfold measure. simpl.
    destruct Hcase as [(-> & -> & _)|[-> Hgrow]].
    + assert (size (dom (objMap c) ∖ ({[k]} ∪ seen c)) < size (dom (objMap c) ∖ seen c)).
      { apply subset_size. split; [set_solver|].
        intros Hback. assert (k ∈ dom (objMap c) ∖ seen c) as Hin.
        { apply elem_of_difference. split; [|done]. apply elem_of_dom. eauto. }
        apply Hback in Hin. set_solver. }
      lia.
    + pose proof (size_difference_grow _ _ Hgrow Hdom').
      pose proof (size_difference_le (dom m') ({[k]} ∪ seen c) Hdom').
      destruct (dirty c); nia.
  - unfold measure. simpl. rewrite Hdirty.
    pose proof (size_difference_le (dom (objMap c)) ∅ Hdom).
    split; [done|]. lia.
Qed.

(** No run of the loop goes on for ever, whatever the order of the ranges. *)
Lemma step_sn fuel c : dom (objMap c) ⊆ names → sn (step' fuel) c.
Proof.
  remember (measure names c) as n eqn:Hn. revert c Hn.
  induction n as [n IH] using lt_wf_ind. intros c -> Hdom.
  constructor. intros c' Hstep. unfold flip in Hstep.
  destruct (step_measure _ _ _ Hdom Hstep) as [Hdom' Hlt].
  by eapply IH.
Qed.

Context (fuel : nat).
Context (defined : ∀ t, reflect.kind U t = reflect.Struct → returns (defineObject' fuel t)).

Lemma visitProps_returns ps st :
  returns (visitProps U reg makeName makeRef fuel ps st).
Proof.
  rewrite visitProps_all. generalize (ps ≫= chain). clear ps. intros qs.
  revert st; induction qs as [|q qs IH]; intros st; simpl; [by eexists|].
  assert (returns (visitNode U reg makeName makeRef fuel q st)) as [st' ->]; [|apply IH].
  unfold visitNode. case_bool_decide as Hk; [|by eexists].
  destruct (st.1 !! _); [by eexists|].
  destruct (defined _ Hk) as [child ->]. by eexists.
Qed.

Lemma rangeObjects_returns sched keys st :
  returns (rangeObjects U reg makeName makeRef sched fuel keys st).
Proof.
  revert st; induction keys as [|k keys IH]; intros st; simpl; [by eexists|].
  destruct (st.1 !! k) as [d|]; [|apply IH].
  unfold rangeProperties.
  destruct (visitProps_returns (propOrder sched (map_to_list (Object.Properties d)).*2) st)
    as [st' ->].
  apply IH.
Qed.

Lemma defineLoop_returns sched passes m :
  dom m ⊆ names →
  size (names ∖ dom m) < passes →
  returns (defineLoop U reg makeName makeRef sched passes fuel m).
Proof.
  revert m; induction passes as [|passes IH]; intros m Hdom Hsize; [lia|].
  simpl.
  destruct (rangeObjects_returns sched (keyOrder sched (map_to_list m).*1) (m, false))
    as [[m' d'] Hrange].
  rewrite Hrange. simpl.
  destruct d'; [|by eexists].
  apply rangeObjects_Ok in Hrange as (_ & [[_ ?]|[_ Hgrow]] & Hnew); [done|].
  assert (Hdom' : dom m' ⊆ names).
  { intros k [Hk|(t & Hkind & ->)]%Hnew; [by apply Hdom|by apply names_struct]. }
  apply IH; [done|].
  pose proof (size_difference_grow _ _ Hgrow Hdom'). lia.
Qed.
End Termination.

Lemma defineObject_self_pointer makeName makeRef fuel :
  ¬ returns (defineObject selfPointerU types.ptMapping makeName makeRef fuel 0).
Proof.
  induction fuel as [|fuel IH]; intros [obj H]; [done|].
  rewrite defineObject_S in H. apply IH. by exists obj.
Qed.

(** C3, as amended: let the derived names of the struct types lie in a
    finite set [names], and let the object definer return, under the stack
    bound [fuel], on the root type and on every struct type.  Then no run of
    the closure loop goes on for ever, whatever the order in which the
    working map and the properties are ranged over; every executable schedule
    returns a graph within one pass more than there are names; and a graph
    that the loop returns holds exactly one entry whose object bears the name
    of the root's object, which for a struct root, self-referential or not,
    is the derived name of that type. *)
Theorem define_terminates (U : reflect.Universe) (reg : types.Registry)
    (makeName : reflect.Type_ → string) (makeRef : string → string)
    (names : gset string) (fuel : nat) (root : reflect.Type_) (obj : Object) :
  (∀ t, reflect.kind U t = reflect.Struct → makeName t ∈ names) →
  (∀ t, reflect.kind U t = reflect.Struct →
        returns (defineObject U reg makeName makeRef fuel t)) →
  defineObject U reg makeName makeRef fuel root = Ok obj →
  sn (step U reg makeName makeRef fuel) (initial {[ Object.Name obj := obj ]}) ∧
  (∀ sched, returns (define U reg makeName makeRef sched (S (size names)) fuel root)) ∧
  (∀ g, define_run U reg makeName makeRef fuel root g →
        ∃ k, (∃ o, g !! k = Some o ∧ Object.Name o = Object.Name obj) ∧
             ∀ k', (∃ o, g !! k' = Some o ∧ Object.Name o = Object.Name obj) → k' = k) ∧
  (reflect.kind U root = reflect.Struct → Object.Name obj = makeName root).
Proof.
  intros Hnames Hdefined Hobj.
  set (names' := {[ Object.Name obj ]} ∪ names).
  assert (Hnames' : ∀ t, reflect.kind U t = reflect.Struct → makeName t ∈ names').
  { intros t Ht. apply elem_of_union. right. by apply Hnames. }
  assert (Hdom0 : dom ({[ Object.Name obj := obj ]} : Graph) ⊆ names').
  { rewrite dom_singleton_L. apply union_subseteq_l. }
  split; [|split; [|split]].
  - by apply (step_sn U reg makeName makeRef names' Hnames').
  - intros sched. unfold define. rewrite Hobj, ret_bind.
    apply (defineLoop_returns U reg makeName makeRef names' Hnames' fuel Hdefined);
      [done|].
    rewrite dom_singleton_L.
    assert (size (names' ∖ {[ Object.Name obj ]}) ≤ size names)%nat; [|lia].
    apply subseteq_size. set_solver.
  - intros g (obj' & c & Hobj' & (_ & _ & I3 & I4) & _ & <-)%define_run_invariant.
    assert (obj' = obj) as -> by congruence.
    exists (Object.Name obj). split; [by exists obj|].
    intros k (o & Hk & Ho). apply I3 in Hk as [_ Hname]. congruence.
  - intros Hk. by eapply defineObject_struct.
Qed.

Lemma nodeU_defined t :
  reflect.kind nodeU t = reflect.Struct →
  returns (defineObject nodeU types.ptMapping (nameByString nodeU) refTo 6 t).
Proof.
  destruct t as [|[|[|[|[|t]]]]]; try done. intros _. eexists. by vm_compute.
Qed.

Lemma nodeU_names t :
  reflect.kind nodeU t = reflect.Struct →
  nameByString nodeU t ∈ ({[ "main.Node" ]} : gset string).
Proof.
  destruct t as [|[|[|[|[|t]]]]]; try done.
Qed.

Lemma define_terminates_witness :
  returns (define nodeU types.ptMapping (nameByString nodeU) refTo inOrder 2 6 1) ∧
  ∃ obj,
    defineObject nodeU types.ptMapping (nameByString nodeU) refTo 6 1 = Ok obj ∧
    sn (step nodeU types.ptMapping (nameByString nodeU) refTo 6)
       (initial {[ "main.Node" := obj ]}).
Proof.
  destruct (defineObject nodeU types.ptMapping (nameByString nodeU) refTo 6 1)
    as [obj| |] eqn:Hobj; [|by vm_compute in Hobj..].
  destruct (define_terminates nodeU types.ptMapping (nameByString nodeU) refTo
              {[ "main.Node" ]} 6 1 obj nodeU_names nodeU_defined Hobj)
    as (Hsn & Hret & _ & Hname).
  split.
  - rewrite size_singleton in Hret. apply Hret.
  - exists obj. split; [done|]. rewrite (Hname eq_refl) in Hsn. exact Hsn.
Defined.

(** C3, the claim as stated fails on the root [type P *P], in a type table
    without any struct type: the object definer unwraps the pointer over and
    over, and the builder returns under no stack bound, in no order. *)
Lemma define_no_result_on_self_pointer :
  (¬ ∃ fuel g,
       define_run selfPointerU types.ptMapping (nameByString selfPointerU) refTo fuel 0 g) ∧
  (¬ ∃ sched passes fuel g,
       define selfPointerU types.ptMapping (nameByString selfPointerU) refTo
         sched passes fuel 0 = Ok g).
Proof.
  split.
  - intros (fuel & g & obj & c & Hobj & _).
    apply (defineObject_self_pointer (nameByString selfPointerU) refTo fuel). by exists obj.
  - intros (sched & passes & fuel & g & H). unfold define in H. bind_inv H.
    apply (defineObject_self_pointer (nameByString selfPointerU) refTo fuel). by exists a.
Qed.

(** ** The model on the scenarios of the specification and of the tests *)

(** [Pet{Name string; Tags []string `required:""`}] derives one object with
    the properties [Name], a string, and [Tags], an array of strings, and the
    required list [["Tags"]]. *)
Example define_Pet :
  define petU types.ptMapping (nameByString petU) refTo inOrder 1 5 2 =
    Ok {[ "main.Pet" := petObject ]}.
Proof. by vm_compute. Qed.

(** [TestParse]: a pointer to a slice is an array, [json.Number] is what the
    registry says, a channel is unknown. *)
Example Parse_pointer_to_slice :
  types.Parse
    (λ t, match t with
          | 0 => reflect.mkRtype reflect.Ptr "*[]int" 1 []
          | 1 => reflect.mkRtype reflect.Slice "[]int" 2 []
          | _ => reflect.mkRtype reflect.Int "int" 0 []
          end) types.ptMapping 2 0 = Ok types.Array.
Proof. reflexivity. Qed.

Example Parse_json_Number :
  types.Parse scalarsU types.ptMapping 1 6 = Ok (types.Get types.ptMapping "json.Number").
Proof. reflexivity. Qed.

Example Parse_channel : types.Parse scalarsU types.ptMapping 1 5 = Ok types.Unknown.
Proof. reflexivity. Qed.

(** [TestRegister] *)
Example Register_then_Get :
  types.Get (types.Register types.ptMapping "json.Number" types.Integer) "json.Number"
  = types.Integer.
Proof. reflexivity. Qed.

(** A self-referential record: [Node] refers to itself through a pointer, a
    slice and a map, and the graph holds the one object of [Node]. *)
Example define_Node :
  ∃ g, define nodeU types.ptMapping (nameByString nodeU) refTo inOrder 1 6 1 = Ok g ∧
       dom g = {[ "main.Node" ]}.
Proof. eexists. split; [by vm_compute|]. by vm_compute. Qed.

(** A field annotated [json:",string"] on an integer field has kind string;
    a field whose name begins with a small letter is left out. *)
Example string_coercion_and_visibility :
  buildFields fieldsU types.ptMapping (nameByString fieldsU) refTo 2 (λ _, Panic)
    [reflect.mkField "Count" 0 [("json", ",string")] false;
     reflect.mkField "hidden" 0 [] false] (∅, [])
  = Ok ({[ "Count" := Property.mk 0 "string" "" "" "" "" [] None None ]}, []).
Proof. by vm_compute. Qed.

(** The annotation is trimmed of Unicode white space as well: with U+00A0
    before [alias] and U+3000 after it the field is filed under [alias], and
    with U+00A0 before [-] it is left out. *)
Example annotation_trimmed_of_unicode_space :
  let nbsp := String (ascii_of_nat 194) (String (ascii_of_nat 160) "") in
  let wide := String (ascii_of_nat 227) (String (ascii_of_nat 128)
                (String (ascii_of_nat 128) "")) in
  buildFields fieldsU types.ptMapping (nameByString fieldsU) refTo 2 (λ _, Panic)
    [reflect.mkField "A" 0 [("json", nbsp +:+ "alias" +:+ wide)] false;
     reflect.mkField "B" 0 [("json", nbsp +:+ "-")] false] (∅, [])
  = Ok ({[ "alias" := Property.mk 0 "integer" "int32" "" "" "" [] None None ]}, []).
Proof. by vm_compute. Qed.

(** * Further properties of the code *)

(** ** The registry and the classifiers *)

Lemma Get_Register reg name pt s :
  types.Get (types.Register reg name pt) s =
    if decide (name = s) then pt else types.Get reg s.
Proof.
  unfold types.Get, types.Register. rewrite lookup_insert.
  by destruct (decide (name = s)).
Qed.

(** X1: once a name is registered with a kind other than unknown, [Parse]
    gives that kind to every type, behind any chain of pointers that ends,
    whose unwrapped type bears the name, whatever its structure; every other
    type is classified as before. *)
Theorem Parse_after_Register (U : reflect.Universe) (reg : types.Registry)
    (name : string) (pt : types.ParameterType)
    (t : reflect.Type_) (d : nat) (t' : reflect.Type_) (fuel : nat) :
  unwraps U t d t' →
  pt ≠ types.Unknown →
  d < fuel →
  types.Parse U (types.Register reg name pt) fuel t =
    if decide (reflect.String_ U t' = name) then Ok pt else types.Parse U reg fuel t.
Proof.
  intros Hu Hpt Hd.
  assert (Hk : reflect.kind U t' ≠ reflect.Ptr) by (clear -Hu; induction Hu; done).
  replace fuel with (d + S (fuel - S d)) by lia.
  rewrite !(Parse_unwraps _ _ _ _ _ _ Hu). simpl.
  rewrite bool_decide_false by done. rewrite Get_Register.
  destruct (decide (reflect.String_ U t' = name)) as [->|Hne].
  - rewrite decide_True by done. by rewrite bool_decide_true.
  - by rewrite decide_False by done.
Qed.

Lemma Parse_after_Register_witness :
  types.Parse scalarsU (types.Register types.ptMapping "int64" types.String) 3 4
    = Ok types.String ∧
  types.Parse scalarsU (types.Register types.ptMapping "int64" types.String) 3 1
    = Ok types.Integer.
Proof.
  assert (Hu : unwraps scalarsU 4 2 2).
  { apply unwraps_ptr; [done|]. apply unwraps_ptr; [done|]. by apply unwraps_done. }
  assert (Hu' : unwraps scalarsU 1 0 1) by (by apply unwraps_done).
  assert (Hpt : types.String ≠ types.Unknown) by done.
  split.
  - exact (Parse_after_Register scalarsU types.ptMapping "int64" types.String 4 2 2 3
             Hu Hpt ltac:(lia)).
  - exact (Parse_after_Register scalarsU types.ptMapping "int64" types.String 1 0 1 3
             Hu' Hpt ltac:(lia)).
Defined.

(** X2: registering a name with the kind unknown is to [Parse] what having
    no entry for the name is: the comparison [pt != Unknown] lets the entry
    pass for a miss, and a seeded override is switched off that way. *)
Theorem Parse_Register_Unknown (U : reflect.Universe) (reg : types.Registry)
    (name : string) (fuel : nat) (t : reflect.Type_) :
  types.Parse U (types.Register reg name types.Unknown) fuel t =
  types.Parse U (delete name reg) fuel t.
Proof.
  revert t; induction fuel as [|fuel IH]; intros t; [done|].
  cbn [types.Parse]. case_bool_decide.
  { destruct (reflect.Elem U t) as [e| |]; [apply IH|done..]. }
  assert (types.Get (types.Register reg name types.Unknown) (reflect.String_ U t) =
          types.Get (delete name reg) (reflect.String_ U t)) as ->; [|done].
  rewrite Get_Register. unfold types.Get. rewrite lookup_delete.
  by destruct (decide (name = reflect.String_ U t)).
Qed.

(** X3: where the registry has no entry for the unwrapped type, a format
    other than none comes with a numeric kind: int32 and int64 with integer,
    float and double with number. *)
Theorem format_comes_with_numeric_kind (U : reflect.Universe) (reg : types.Registry)
    (t : reflect.Type_) (d : nat) (t' : reflect.Type_) (fuel : nat)
    (format : types.Format) :
  unwraps U t d t' →
  types.Get reg (reflect.String_ U t') = types.Unknown →
  types.ParseFormat U fuel t = Ok format →
  format ≠ types.FormatNone →
  (format = types.FormatInt32 ∨ format = types.FormatInt64) ∧
    types.Parse U reg fuel t = Ok types.Integer ∨
  (format = types.FormatFloat ∨ format = types.FormatDouble) ∧
    types.Parse U reg fuel t = Ok types.Number.
Proof.
  intros Hu Hg Hf Hne.
  assert (Hk : reflect.kind U t' ≠ reflect.Ptr) by (clear -Hu; induction Hu; done).
  assert (Hd : d < fuel).
  { clear -Hu Hf. revert fuel Hf. induction Hu as [t _|t d t' Hkt _ IH]; intros fuel Hf.
    - destruct fuel; [done|lia].
    - destruct fuel as [|fuel]; [done|]. simpl in Hf.
      rewrite bool_decide_true, Elem_ptr in Hf by done. apply IH in Hf. lia. }
  replace fuel with (d + S (fuel - S d)) in * by lia.
  rewrite (ParseFormat_unwraps _ _ _ _ _ Hu) in Hf.
  rewrite (Parse_unwraps _ _ _ _ _ _ Hu). simpl in *.
  rewrite bool_decide_false in * by done. rewrite Hg.
  rewrite bool_decide_false by (intros ?; done).
  destruct (reflect.kind U t'); injection Hf as <-; try done; auto.
Qed.

Lemma format_comes_with_numeric_kind_witness :
  types.Parse scalarsU ∅ 3 4 = Ok types.Integer.
Proof.
  destruct (format_comes_with_numeric_kind scalarsU ∅ 4 2 2 3 types.FormatInt64)
    as [[_ H]|[[H|H] _]]; try done.
  apply unwraps_ptr; [done|]. apply unwraps_ptr; [done|]. by apply unwraps_done.
Defined.

(** ** The property inspector *)

Section InspectShape.
Context (U : reflect.Universe) (reg : types.Registry).
Context (makeName : reflect.Type_ → string) (makeRef : string → string).

#[local] Abbreviation inspect' := (inspect U reg makeName makeRef).
#[local] Abbreviation wellShaped' := (wellShaped U reg makeName makeRef).

Lemma Elem_Ok t e : reflect.Elem U t = Ok e → e = reflect.relem (U t).
Proof. unfold reflect.Elem. destruct (reflect.kind U t); congruence. Qed.

Lemma inspect_shape fuel t p :
  inspect' fuel t = Ok p → ∀ q, q ∈ nested p → wellShaped' q.
Proof.
  revert t p; induction fuel as [|fuel IH]; intros t p; [done|].
  rewrite inspect_S. case_bool_decide as Hptr.
  { intros H. bind_inv H. by eapply IH. }
  intros H. bind_inv H. bind_inv H.
  destruct (reflect.kind U t) eqn:Hk;
    try (injection H as <-; intros q ->%list_elem_of_singleton;
         split; [done|]; split; [done|]; split; [done|];
         exists t; split; [by rewrite Hk|]; left; rewrite Hk;
         split; [|done];
         intros Hin%list_elem_of_In; simpl in Hin; intuition discriminate).
  - (* array *)
    bind_inv H. bind_inv H. injection H as <-. simpl.
    apply Elem_Ok in Ha1 as ->.
    rewrite app_nil_r. intros q [->|Hq]%elem_of_cons; [|by eapply IH].
    split; [done|]. split; [done|]. split; [done|].
    exists t. split; [by rewrite Hk|]. right; right; right. rewrite Hk.
    split; [by apply elem_of_cons; right; apply elem_of_cons; left|].
    split; [done|]. split; [done|]. split; [done|]. by exists fuel, a2.
  - (* map *)
    bind_inv H. bind_inv H. injection H as <-. simpl.
    apply Elem_Ok in Ha1 as ->.
    intros q [->|Hq]%elem_of_cons; [|by eapply IH].
    split; [done|]. split; [done|]. split; [done|].
    exists t. split; [by rewrite Hk|]. right; right; left.
    split; [done|]. split; [done|]. split; [done|]. split; [done|].
    by exists fuel, a2.
  - (* slice *)
    bind_inv H. bind_inv H. injection H as <-. simpl.
    apply Elem_Ok in Ha1 as ->.
    rewrite app_nil_r. intros q [->|Hq]%elem_of_cons; [|by eapply IH].
    split; [done|]. split; [done|]. split; [done|].
    exists t. split; [by rewrite Hk|]. right; right; right. rewrite Hk.
    split; [by apply elem_of_cons; left|].
    split; [done|]. split; [done|]. split; [done|]. by exists fuel, a2.
  - (* struct *)
    injection H as <-. intros q ->%list_elem_of_singleton.
    split; [done|]. split; [done|]. split; [done|].
    exists t. split; [by rewrite Hk|]. right; left. by repeat split.
Qed.

Lemma defineObject_unwraps t d t' fuel :
  unwraps U t d t' →
  defineObject U reg makeName makeRef (d + fuel) t =
  defineObject U reg makeName makeRef fuel t'.
Proof.
  induction 1 as [t Hk|t d t' Hk _ IH]; [done|].
  simpl. rewrite bool_decide_true by done. rewrite Elem_ptr by done. exact IH.
Qed.
End InspectShape.

(** X4: every property that [inspect] returns, and every property below it
    along [Items] and [AdditionalProperties], carries no example, description
    or enumeration and is, for a type [s] that is not a pointer, of one of
    four forms: a scalar with [s] as [GoType]; a reference by name to the
    struct [s], with [s] as [GoType] and an empty kind; a map with [s] as
    [GoType] and, as [AdditionalProperties], the property that [inspect]
    returns for the type of its values; an array or slice with the element
    type of [s] as [GoType] and, as [Items], the property that [inspect]
    returns for that element type. *)
Theorem inspect_well_shaped (U : reflect.Universe) (reg : types.Registry)
    (makeName : reflect.Type_ → string) (makeRef : string → string)
    (fuel : nat) (t : reflect.Type_) (p q : Property) :
  inspect U reg makeName makeRef fuel t = Ok p →
  q ∈ nested p →
  wellShaped U reg makeName makeRef q.
Proof. intros H Hq. by eapply inspect_shape. Qed.

Lemma inspect_well_shaped_witness :
  wellShaped nestedU types.ptMapping (nameByString nestedU) refTo
    (innerReference (nameByString nestedU) refTo).
Proof.
  apply (inspect_well_shaped nestedU types.ptMapping (nameByString nestedU) refTo 5 3
           (gridProperty (nameByString nestedU) refTo)).
  - by vm_compute.
  - unfold nested, gridProperty. simpl. set_solver.
Defined.

(** X5: a pointer type is transparent: behind a chain of pointers that ends
    in [t'], [inspect] returns the property of [t'], [defineObject] the object
    of [t'], and [MakeSchema] the reference of [t']. *)
Theorem pointers_are_transparent (U : reflect.Universe) (reg : types.Registry)
    (makeName : reflect.Type_ → string) (makeRef : string → string)
    (t : reflect.Type_) (d : nat) (t' : reflect.Type_) (fuel : nat) :
  unwraps U t d t' →
  inspect U reg makeName makeRef (d + fuel) t = inspect U reg makeName makeRef fuel t' ∧
  defineObject U reg makeName makeRef (d + fuel) t =
    defineObject U reg makeName makeRef fuel t' ∧
  Schema.Ref <$> MakeSchema U reg makeName makeRef (d + fuel) t =
    Schema.Ref <$> MakeSchema U reg makeName makeRef fuel t'.
Proof.
  intros Hu. split; [by apply inspect_unwraps|].
  split; [by apply defineObject_unwraps|].
  unfold MakeSchema. rewrite (defineObject_unwraps _ _ _ _ _ _ _ _ Hu).
  by destruct (defineObject U reg makeName makeRef fuel t').
Qed.

Lemma pointers_are_transparent_witness :
  Schema.Ref <$> MakeSchema nodeU types.ptMapping (nameByString nodeU) refTo 7 2 =
  Schema.Ref <$> MakeSchema nodeU types.ptMapping (nameByString nodeU) refTo 6 1.
Proof.
  apply (pointers_are_transparent nodeU types.ptMapping (nameByString nodeU) refTo 2 1 1 6).
  apply unwraps_ptr; [done|]. by apply unwraps_done.
Defined.

(** ** The field enumerator, field by field *)

Lemma upper_is_lowered c :
  strings.isUpper c = true → ascii_of_nat (nat_of_ascii c + 32) ≠ c.
Proof.
  unfold strings.isUpper. intros [H1 H2]%andb_true_iff Heq.
  apply Nat.leb_le in H1, H2.
  apply (f_equal nat_of_ascii) in Heq.
  rewrite nat_ascii_embedding in Heq by lia. lia.
Qed.

Lemma isExported_exportedField field :
  isExported field = true ↔ exportedField field.
Proof.
  unfold isExported, exportedField. destruct (reflect.Name field) as [|c rest]; simpl.
  { split; [done|]. by intros (first & ? & _). }
  destruct (strings.isASCII c) eqn:Hascii; simpl.
  - destruct (strings.isUpper c) eqn:Hupper; simpl.
    + split; [|done]. intros _. eexists. split; [done|]. simpl. rewrite Hascii, Hupper.
      intros [= Heq]. by apply upper_is_lowered in Heq.
    + split; [done|]. intros (first & [= <-] & Hne). simpl in Hne.
      by rewrite Hascii, Hupper in Hne.
  - split; [|done]. intros _. eexists. split; [done|]. simpl. by rewrite Hascii.
Qed.

Section FieldByField.
Context (U : reflect.Universe) (reg : types.Registry).
Context (makeName : reflect.Type_ → string) (makeRef : string → string).

#[local] Abbreviation buildField' := (buildField U reg makeName makeRef).
#[local] Abbreviation buildFields' := (buildFields U reg makeName makeRef).

Lemma buildField_not_exported fuel recur field st :
  reflect.Name field ≠ "" → isExported field = false →
  buildField' fuel recur field st = Ok st.
Proof.
  unfold isExported, buildField. destruct st as [properties required].
  destruct (reflect.Name field) as [|c rest]; [done|]. intros _ Hexp. simpl.
  apply negb_false_iff, andb_true_iff in Hexp as [Hascii Hupper%negb_true_iff].
  rewrite Hascii, Hupper. by rewrite bool_decide_true.
Qed.

Lemma buildField_empty_name fuel recur field st :
  reflect.Name field = "" → buildField' fuel recur field st = Panic.
Proof. unfold buildField. destruct st. by intros ->. Qed.

Lemma jsonName_nameOf field : jsonName field = Ok (nameOf field).
Proof. apply jsonName_eq. Qed.

(** A turn of the loop on a listed field. *)
Lemma buildField_listed fuel recur field st :
  listed field = true →
  buildField' fuel recur field st =
    p ← (if strings.Contains (reflect.Get (reflect.Tag field) "json") ",string"
         then Ok (Property.mk (reflect.FType field) types.String "" "" "" "" [] None None)
         else inspect U reg makeName makeRef fuel (reflect.FType field));
    Ok (<[nameOf field :=
           setEnum (reflect.Tag field)
             (setDescription (reflect.Get (reflect.Tag field) "desc")
                (setDescription (reflect.Get (reflect.Tag field) "description")
                   (setExample (reflect.Tag field) p)))]> st.1,
        match reflect.Lookup (reflect.Tag field) "required" with
        | Some _ => (st.2 ++ [nameOf field])%list
        | None => st.2
        end).
Proof.
  unfold listed.
  intros [[Hexp Hanon%negb_true_iff]%andb_true_iff Hname%negb_true_iff]%andb_true_iff.
  apply bool_decide_eq_false in Hname.
  rewrite buildField_exported by (by apply isExported_exportedField).
  rewrite Hanon, jsonName_nameOf, ret_bind. by rewrite bool_decide_false.
Qed.

(** What a turn of the loop adds to the required list and to the keys. *)
Lemma buildField_adds fuel recur field st st' :
  buildField' fuel recur field st = Ok st' →
  st'.2 = (st.2 ++ requiredOf [field])%list ∧
  dom st'.1 = dom st.1 ∪ keysOf recur [field].
Proof.
  unfold requiredOf, keysOf. simpl. rewrite (right_id_L ∅ (∪)).
  destruct (decide (reflect.Name field = "")) as [Hempty|Hname].
  { by rewrite buildField_empty_name. }
  destruct (isExported field) eqn:Hexp.
  2:{ rewrite buildField_not_exported by done. intros [= <-].
      unfold listed. rewrite Hexp. simpl. rewrite app_nil_r.
      split; [done|]. by rewrite (right_id_L ∅ (∪)). }
  destruct (reflect.Anonymous field) eqn:Hanon.
  { rewrite buildField_exported, Hanon by (by apply isExported_exportedField).
    unfold listed. rewrite Hexp, Hanon. simpl. rewrite app_nil_r.
    intros H. bind_inv H. destruct a as [ps rq]. injection H as <-. simpl.
    rewrite Ha. split; [done|]. rewrite dom_union_L. set_solver. }
  destruct (decide (nameOf field = "-")) as [Hdash|Hdash].
  { rewrite buildField_exported, Hanon, jsonName_nameOf, ret_bind
      by (by apply isExported_exportedField).
    unfold listed. rewrite Hexp, Hanon.
    rewrite !(bool_decide_true (nameOf field = "-")) by done. intros [= <-]. simpl.
    rewrite app_nil_r. split; [done|]. by rewrite (right_id_L ∅ (∪)). }
  assert (Hlisted : listed field = true).
  { unfold listed. rewrite Hexp, Hanon. by rewrite bool_decide_false. }
  rewrite buildField_listed, Hlisted by done.
  rewrite (bool_decide_false (nameOf field = "-")) by done.
  intros H. bind_inv H. injection H as <-.
  simpl. split.
  - destruct (reflect.Lookup (reflect.Tag field) "required") as [v|] eqn:Hreq.
    + rewrite bool_decide_true by eauto. done.
    + rewrite bool_decide_false by (by intros [? ?]). by rewrite app_nil_r.
  - rewrite dom_insert_L. set_solver.
Qed.

Lemma requiredOf_cons field fields :
  requiredOf (field :: fields) = (requiredOf [field] ++ requiredOf fields)%list.
Proof. unfold requiredOf. simpl. by destruct (_ && _). Qed.

Lemma keysOf_cons recur field fields :
  keysOf recur (field :: fields) = keysOf recur [field] ∪ keysOf recur fields.
Proof. unfold keysOf. simpl. by rewrite (right_id_L ∅ (∪)). Qed.

Lemma buildFields_adds fuel recur fields st st' :
  buildFields' fuel recur fields st = Ok st' →
  st'.2 = (st.2 ++ requiredOf fields)%list ∧
  dom st'.1 = dom st.1 ∪ keysOf recur fields.
Proof.
  revert st; induction fields as [|field fields IH]; intros st; cbn [buildFields].
  - intros [= <-]. unfold requiredOf, keysOf. simpl. rewrite app_nil_r.
    by rewrite (right_id_L ∅ (∪)).
  - intros H. bind_inv H. apply buildField_adds in Ha as [Hreq Hkeys].
    apply IH in H as [-> ->]. rewrite Hreq, Hkeys.
    rewrite (requiredOf_cons field fields), (keysOf_cons recur field fields). split.
    + symmetry. apply app_assoc.
    + by rewrite (assoc_L (∪)).
Qed.
End FieldByField.

(** X6: the visibility test looks at the first byte of the declared name: a
    field whose name begins with an ASCII byte that is not a capital letter
    (a small letter, a digit, an underscore) is passed over, whatever its
    tags and whether embedded or not; a field whose name begins with a
    capital letter or with a byte from 0x80 on counts as exported; on an empty
    name the slice [field.Name[0:1]] is out of range. *)
Theorem visibility_by_first_byte (U : reflect.Universe) (reg : types.Registry)
    (makeName : reflect.Type_ → string) (makeRef : string → string)
    (fuel : nat) (recur : reflect.Type_ → result (gmap string Property * list string))
    (field : reflect.StructField) (st : gmap string Property * list string) :
  (reflect.Name field = "" →
   buildField U reg makeName makeRef fuel recur field st = Panic) ∧
  (∀ c rest, reflect.Name field = String c rest →
     (strings.isASCII c = true ∧ strings.isUpper c = false →
      buildField U reg makeName makeRef fuel recur field st = Ok st) ∧
     (strings.isUpper c = true ∨ strings.isASCII c = false → exportedField field)).
Proof.
  split; [apply buildField_empty_name|].
  intros c rest Hname. split.
  - intros [Hascii Hupper]. apply buildField_not_exported; [by rewrite Hname|].
    unfold isExported. by rewrite Hname, Hascii, Hupper.
  - intros Hc. apply isExported_exportedField. unfold isExported. rewrite Hname.
    destruct Hc as [-> | ->]; [by rewrite andb_false_r|done].
Qed.

(** X7: a record none of whose fields passes the visibility test, such as
    [time.Time], enumerates to the empty mapping and the empty required list,
    under any stack bound from one on and whatever the types of its fields. *)
Theorem unexported_record_is_empty (U : reflect.Universe) (reg : types.Registry)
    (makeName : reflect.Type_ → string) (makeRef : string → string)
    (fuel : nat) (t : reflect.Type_) :
  reflect.kind U t = reflect.Struct →
  (∀ field, field ∈ reflect.rfields (U t) →
            reflect.Name field ≠ "" ∧ isExported field = false) →
  buildProperty U reg makeName makeRef (S fuel) t = Ok (∅, []).
Proof.
  intros Hk Hfields. cbn [buildProperty]. unfold reflect.Fields. rewrite Hk, ret_bind.
  induction (reflect.rfields (U t)) as [|field fields IH]; [done|].
  cbn [buildFields].
  destruct (Hfields field) as [Hname Hexp]; [by apply elem_of_cons; left|].
  rewrite buildField_not_exported, ret_bind by done.
  apply IH. intros f Hf. apply Hfields. by apply elem_of_cons; right.
Qed.

Lemma unexported_record_is_empty_witness :
  buildProperty timeU types.ptMapping (nameByString timeU) refTo 1 2 = Ok (∅, []).
Proof.
  apply (unexported_record_is_empty timeU types.ptMapping (nameByString timeU) refTo 0 2).
  - done.
  - intros field Hin. apply list_elem_of_In in Hin. simpl in Hin.
    destruct Hin as [<-|[<-|[<-|[]]]]; by split.
Defined.

(** The three setters on a property given field by field. *)
Lemma setExample_mk tag g ty f r e d en i ap :
  setExample tag (Property.mk g ty f r e d en i ap) =
    Property.mk g ty f r
      (if bool_decide (reflect.Get tag "example" = "") then e else reflect.Get tag "example")
      d en i ap.
Proof.
  unfold setExample. rewrite bool_decide_not.
  by destruct (bool_decide (reflect.Get tag "example" = "")).
Qed.

Lemma setDescription_mk description g ty f r e d en i ap :
  setDescription description (Property.mk g ty f r e d en i ap) =
    Property.mk g ty f r e
      (if bool_decide (description = "") then d else description) en i ap.
Proof.
  unfold setDescription. rewrite bool_decide_not.
  by destruct (bool_decide (description = "")).
Qed.

Lemma setEnum_mk tag g ty f r e d en i ap :
  setEnum tag (Property.mk g ty f r e d en i ap) =
    Property.mk g ty f r e d
      (if bool_decide (reflect.Get tag "enum" = "") then en
       else strings.Split (reflect.Get tag "enum") comma)
      i ap.
Proof.
  unfold setEnum. rewrite bool_decide_not.
  by destruct (bool_decide (reflect.Get tag "enum" = "")).
Qed.

Lemma overlaid_fields tag p :
  Property.GoType (overlaid tag p) = Property.GoType p ∧
  Property.Type_ (overlaid tag p) = Property.Type_ p ∧
  Property.Format (overlaid tag p) = Property.Format p ∧
  Property.Ref (overlaid tag p) = Property.Ref p ∧
  Property.Items (overlaid tag p) = Property.Items p ∧
  Property.AdditionalProperties (overlaid tag p) = Property.AdditionalProperties p ∧
  Property.Example (overlaid tag p) =
    (if bool_decide (reflect.Get tag "example" = "") then Property.Example p
     else reflect.Get tag "example") ∧
  Property.Description (overlaid tag p) =
    (if bool_decide (reflect.Get tag "desc" = "") then
       if bool_decide (reflect.Get tag "description" = "") then Property.Description p
       else reflect.Get tag "description"
     else reflect.Get tag "desc") ∧
  Property.Enum (overlaid tag p) =
    (if bool_decide (reflect.Get tag "enum" = "") then Property.Enum p
     else strings.Split (reflect.Get tag "enum") comma).
Proof.
  destruct p as [g ty f r e d en i ap]. unfold overlaid.
  rewrite setExample_mk, !setDescription_mk, setEnum_mk.
  repeat split.
Qed.

(** X8: a listed field whose [json] annotation contains [,string] is filed
    as a property of kind string with the field's type as [GoType], without
    format, reference, [Items] or [AdditionalProperties]; the type of the
    field is not inspected, so this is so whatever the type and under any
    stack bound. *)
Theorem string_coercion (U : reflect.Universe) (reg : types.Registry)
    (makeName : reflect.Type_ → string) (makeRef : string → string)
    (fuel : nat) (recur : reflect.Type_ → result (gmap string Property * list string))
    (field : reflect.StructField) (st : gmap string Property * list string) :
  listed field = true →
  strings.Contains (reflect.Get (reflect.Tag field) "json") ",string" = true →
  ∃ p,
    buildField U reg makeName makeRef fuel recur field st =
      Ok (<[nameOf field := p]> st.1, (st.2 ++ requiredOf [field])%list) ∧
    Property.Type_ p = types.String ∧
    Property.GoType p = reflect.FType field ∧
    Property.Format p = "" ∧ Property.Ref p = "" ∧
    Property.Items p = None ∧ Property.AdditionalProperties p = None.
Proof.
  intros Hlisted Hstring.
  pose proof (buildField_listed U reg makeName makeRef fuel recur field st Hlisted) as Heq.
  rewrite Hstring, ret_bind in Heq.
  eexists. split.
  - rewrite Heq. f_equal. f_equal.
    unfold requiredOf. simpl. rewrite Hlisted. simpl.
    destruct (reflect.Lookup (reflect.Tag field) "required") as [v|] eqn:Hreq.
    + by rewrite bool_decide_true by eauto.
    + rewrite bool_decide_false by (by intros [? ?]). by rewrite app_nil_r.
  - rewrite setExample_mk, !setDescription_mk, setEnum_mk. repeat split.
Qed.

Lemma string_coercion_witness :
  ∃ p,
    buildField timeU types.ptMapping (nameByString timeU) refTo 0 (λ _, Panic)
      (reflect.mkField "Kind" 6 [("json", "kind,string"); ("enum", "a,b")] false) (∅, []) =
      Ok (<["kind" := p]> ∅, []) ∧
    Property.Type_ p = types.String.
Proof.
  destruct (string_coercion timeU types.ptMapping (nameByString timeU) refTo 0 (λ _, Panic)
              (reflect.mkField "Kind" 6 [("json", "kind,string"); ("enum", "a,b")] false)
              (∅, [])) as (p & Hp & Htype & _); [done..|].
  exists p. by split.
Defined.

(** X9: for a listed field without [,string] in its annotation, the property
    filed is the one [inspect] returns for the field's type, with kind,
    format, reference and element properties untouched, with the [example]
    tag as example, with the [desc] tag as description or, where [desc] is
    empty, the [description] tag, and with the [enum] tag split at its commas
    as enumeration (none where the tag is empty). *)
Theorem metadata_overlays (U : reflect.Universe) (reg : types.Registry)
    (makeName : reflect.Type_ → string) (makeRef : string → string)
    (fuel : nat) (recur : reflect.Type_ → result (gmap string Property * list string))
    (field : reflect.StructField) (st : gmap string Property * list string)
    (p0 : Property) :
  listed field = true →
  strings.Contains (reflect.Get (reflect.Tag field) "json") ",string" = false →
  inspect U reg makeName makeRef fuel (reflect.FType field) = Ok p0 →
  let tag := reflect.Tag field in
  ∃ p,
    buildField U reg makeName makeRef fuel recur field st =
      Ok (<[nameOf field := p]> st.1, (st.2 ++ requiredOf [field])%list) ∧
    Property.GoType p = Property.GoType p0 ∧
    Property.Type_ p = Property.Type_ p0 ∧
    Property.Format p = Property.Format p0 ∧
    Property.Ref p = Property.Ref p0 ∧
    Property.Items p = Property.Items p0 ∧
    Property.AdditionalProperties p = Property.AdditionalProperties p0 ∧
    Property.Example p = reflect.Get tag "example" ∧
    Property.Description p =
      (if bool_decide (reflect.Get tag "desc" = "") then reflect.Get tag "description"
       else reflect.Get tag "desc") ∧
    Property.Enum p =
      (if bool_decide (reflect.Get tag "enum" = "") then []
       else strings.Split (reflect.Get tag "enum") comma).
Proof.
  intros Hlisted Hstring Hp0 tag.
  pose proof (buildField_listed U reg makeName makeRef fuel recur field st Hlisted) as Heq.
  rewrite Hstring, Hp0, ret_bind in Heq.
  exists (overlaid tag p0). split.
  - rewrite Heq. f_equal. f_equal.
    unfold requiredOf. simpl. rewrite Hlisted. simpl.
    destruct (reflect.Lookup (reflect.Tag field) "required") as [v|] eqn:Hreq.
    + by rewrite bool_decide_true by eauto.
    + rewrite bool_decide_false by (by intros [? ?]). by rewrite app_nil_r.
  - assert (Hplain : wellShaped U reg makeName makeRef p0).
    { eapply inspect_shape; [exact Hp0|]. destruct p0. simpl. by apply elem_of_cons; left. }
    destruct Hplain as (Hex & Hde & Hen & _).
    destruct (overlaid_fields tag p0) as (-> & -> & -> & -> & -> & -> & -> & -> & ->).
    rewrite Hex, Hde, Hen. repeat split; try reflexivity.
    + by destruct (bool_decide (reflect.Get tag "example" = "")) eqn:He;
        [apply bool_decide_eq_true in He|].
    + destruct (bool_decide (reflect.Get tag "desc" = "")); [|done].
      by destruct (bool_decide (reflect.Get tag "description" = "")) eqn:Hd;
        [apply bool_decide_eq_true in Hd|].
Qed.

Lemma metadata_overlays_witness :
  ∃ p,
    buildField timeU types.ptMapping (nameByString timeU) refTo 2 (λ _, Panic)
      (reflect.mkField "At" 2 [("desc", "when"); ("description", "time of the event")] false)
      (∅, []) = Ok (<["At" := p]> ∅, []) ∧
    Property.Description p = "when" ∧
    Property.Ref p = refTo "time.Time".
Proof.
  destruct (metadata_overlays timeU types.ptMapping (nameByString timeU) refTo 2 (λ _, Panic)
              (reflect.mkField "At" 2 [("desc", "when"); ("description", "time of the event")]
                 false)
              (∅, []) (Property.mk 2 "" "" (refTo "time.Time") "" "" [] None None))
    as (p & Hp & _ & _ & _ & Href & _ & _ & _ & Hdesc & _); [done..|].
  exists p. split; [exact Hp|]. by split.
Defined.

(** X10: the required list that the field enumerator returns for a record
    is the list of the names of its listed fields (exported, not embedded,
    not named [-]) that carry a [required] tag, in the order of declaration:
    the value of the tag is not looked at, a name stands once for each field
    that brings it, and embedded records add nothing. *)
Theorem required_list_characterised (U : reflect.Universe) (reg : types.Registry)
    (makeName : reflect.Type_ → string) (makeRef : string → string)
    (fuel : nat) (t : reflect.Type_)
    (properties : gmap string Property) (required : list string) :
  buildProperty U reg makeName makeRef fuel t = Ok (properties, required) →
  required = requiredOf (reflect.rfields (U t)).
Proof.
  destruct fuel as [|fuel]; [done|]. cbn [buildProperty]. intros H. bind_inv H.
  unfold reflect.Fields in Ha. destruct (reflect.kind U t); try done.
  injection Ha as <-. apply buildFields_adds in H as [Hreq _]. exact Hreq.
Qed.

Lemma required_list_characterised_witness :
  ∃ properties,
    buildProperty fieldsU types.ptMapping (λ t, "") (λ s, s) 4 3 = Ok (properties, ["Age"]).
Proof.
  destruct (buildProperty fieldsU types.ptMapping (λ t, "") (λ s, s) 4 3)
    as [[properties required]| |] eqn:H; [|by vm_compute in H..].
  exists properties.
  by rewrite (required_list_characterised fieldsU types.ptMapping (λ t, "") (λ s, s) 4 3
                properties required H).
Defined.

(** X11: the keys of the mapping that the field enumerator returns for a
    record are the names of its listed fields together with the keys of the
    mappings of its exported embedded fields, and nothing else: a field that
    fails the visibility test or is named [-] brings no key. *)
Theorem keys_characterised (U : reflect.Universe) (reg : types.Registry)
    (makeName : reflect.Type_ → string) (makeRef : string → string)
    (fuel : nat) (t : reflect.Type_)
    (properties : gmap string Property) (required : list string) :
  buildProperty U reg makeName makeRef (S fuel) t = Ok (properties, required) →
  dom properties =
    keysOf (buildProperty U reg makeName makeRef fuel) (reflect.rfields (U t)).
Proof.
  cbn [buildProperty]. intros H. bind_inv H.
  unfold reflect.Fields in Ha. destruct (reflect.kind U t); try done.
  injection Ha as <-. apply buildFields_adds in H as [_ Hkeys]. simpl in Hkeys.
  rewrite Hkeys, dom_empty_L. by rewrite (left_id_L ∅ (∪)).
Qed.

Lemma keys_characterised_witness :
  ∃ properties required,
    buildProperty fieldsU types.ptMapping (λ t, "") (λ s, s) 4 3 = Ok (properties, required) ∧
    dom properties = {[ "ID"; "alias"; "Age" ]}.
Proof.
  destruct (buildProperty fieldsU types.ptMapping (λ t, "") (λ s, s) 4 3)
    as [[properties required]| |] eqn:H; [|by vm_compute in H..].
  exists properties, required. split; [done|].
  rewrite (keys_characterised fieldsU types.ptMapping (λ t, "") (λ s, s) 3 3
             properties required H).
  by vm_compute.
Defined.

Section LaterFieldWins.
Context (U : reflect.Universe) (reg : types.Registry).
Context (makeName : reflect.Type_ → string) (makeRef : string → string).

Lemma buildField_keeps fuel recur field st st' k :
  buildField U reg makeName makeRef fuel recur field st = Ok st' →
  k ∉ keysOf recur [field] →
  st'.1 !! k = st.1 !! k.
Proof.
  unfold keysOf. simpl. rewrite (right_id_L ∅ (∪)).
  destruct (decide (reflect.Name field = "")) as [Hempty|Hname].
  { by rewrite buildField_empty_name. }
  destruct (isExported field) eqn:Hexp.
  2:{ rewrite buildField_not_exported by done. by intros [= <-]. }
  destruct (reflect.Anonymous field) eqn:Hanon.
  { rewrite buildField_exported, Hanon by (by apply isExported_exportedField).
    intros H. bind_inv H. destruct a as [ps rq]. injection H as <-. simpl.
    rewrite Ha. intros Hk%not_elem_of_dom. by rewrite lookup_union_r. }
  destruct (decide (nameOf field = "-")) as [Hdash|Hdash].
  { rewrite buildField_exported, Hanon, jsonName_nameOf, ret_bind
      by (by apply isExported_exportedField).
    rewrite !(bool_decide_true (nameOf field = "-")) by done. by intros [= <-]. }
  assert (Hlisted : listed field = true).
  { unfold listed. rewrite Hexp, Hanon. by rewrite bool_decide_false. }
  rewrite buildField_listed by done.
  rewrite (bool_decide_false (nameOf field = "-")) by done.
  intros H. bind_inv H. injection H as <-. simpl.
  intros Hk. rewrite lookup_insert_ne; [done|]. set_solver.
Qed.

Lemma buildFields_keeps fuel recur fields st st' k :
  buildFields U reg makeName makeRef fuel recur fields st = Ok st' →
  k ∉ keysOf recur fields →
  st'.1 !! k = st.1 !! k.
Proof.
  revert st; induction fields as [|field fields IH]; intros st; cbn [buildFields].
  - by intros [= <-].
  - intros H. bind_inv H. rewrite (keysOf_cons recur field fields).
    intros [Hk1 Hk2]%not_elem_of_union.
    rewrite (IH _ H Hk2). by eapply buildField_keeps.
Qed.
End LaterFieldWins.

(** X12: of two fields that bring the same name the later one stays: the
    mapping returned for a record holds, under the name of a listed field,
    the property of that field, with its overlays, whatever the fields
    declared before it filed under the name, unless a field declared after it
    or an embedded record after it brings the name again. *)
Theorem later_field_wins (U : reflect.Universe) (reg : types.Registry)
    (makeName : reflect.Type_ → string) (makeRef : string → string)
    (fuel : nat) (t : reflect.Type_)
    (pre post : list reflect.StructField) (field : reflect.StructField)
    (properties : gmap string Property) (required : list string) :
  reflect.rfields (U t) = (pre ++ field :: post)%list →
  listed field = true →
  nameOf field ∉ keysOf (buildProperty U reg makeName makeRef fuel) post →
  buildProperty U reg makeName makeRef (S fuel) t = Ok (properties, required) →
  ∃ p0,
    (if strings.Contains (reflect.Get (reflect.Tag field) "json") ",string"
     then Ok (Property.mk (reflect.FType field) types.String "" "" "" "" [] None None)
     else inspect U reg makeName makeRef fuel (reflect.FType field)) = Ok p0 ∧
    properties !! nameOf field = Some (overlaid (reflect.Tag field) p0).
Proof.
  intros Hfields Hlisted Hpost H. cbn [buildProperty] in H. bind_inv H.
  unfold reflect.Fields in Ha. destruct (reflect.kind U t); try done.
  injection Ha as <-. rewrite Hfields, buildFields_app in H. bind_inv H.
  cbn [buildFields] in H. bind_inv H.
  rewrite buildField_listed in Ha0 by done. bind_inv Ha0. injection Ha0 as <-.
  exists a1. split; [done|].
  apply (buildFields_keeps U reg makeName makeRef) with (k := nameOf field) in H; [|done].
  simpl in H. rewrite H. apply lookup_insert_eq.
Qed.

Lemma later_field_wins_witness :
  ∃ properties required,
    buildProperty timeU types.ptMapping (nameByString timeU) refTo 4 5 =
      Ok (properties, required) ∧
    properties !! "At" = Some (Property.mk 1 "integer" "int64" "" "" "" [] None None).
Proof.
  destruct (buildProperty timeU types.ptMapping (nameByString timeU) refTo 4 5)
    as [[properties required]| |] eqn:H; [|by vm_compute in H..].
  exists properties, required. split; [done|].
  destruct (later_field_wins timeU types.ptMapping (nameByString timeU) refTo 3 5
              [reflect.mkField "At" 2 [("desc", "when"); ("description", "time of the event")]
                 false;
               reflect.mkField "Kind" 6 [("json", "kind,string"); ("enum", "a,b")] false]
              [] (reflect.mkField "At2" 1 [("json", "At")] false)
              properties required) as (p0 & Hp0 & Hat); [done|done| |done|].
  - unfold keysOf. simpl. apply not_elem_of_empty.
  - simpl in Hp0. injection Hp0 as <-. exact Hat.
Defined.

(** ** The object definer and the closure loop *)

Section GraphFacts.
Context (U : reflect.Universe) (reg : types.Registry).
Context (makeName : reflect.Type_ → string) (makeRef : string → string).

#[local] Abbreviation defineObject' := (defineObject U reg makeName makeRef).
#[local] Abbreviation define_run' := (define_run U reg makeName makeRef).

Lemma defineObject_of_struct fuel s o :
  reflect.kind U s = reflect.Struct →
  defineObject' fuel s = Ok o →
  Object.Name o = makeName s ∧ Object.Type_ o = types.Object ∧
  Object.Items o = None ∧ Object.AdditionalProperties o = None.
Proof.
  destruct fuel as [|fuel]; [done|]. rewrite defineObject_S. intros Hk.
  rewrite Hk. rewrite bool_decide_false by done.
  intros H. bind_inv H. destruct a as [properties required]. by injection H as <-.
Qed.

Lemma defineObject_not_struct fuel t d t' o :
  unwraps U t d t' →
  reflect.kind U t' ≠ reflect.Struct →
  defineObject' fuel t = Ok o →
  Object.Properties o = ∅ ∧ Object.Required o = [].
Proof.
  intros Hu Hk. revert fuel. induction Hu as [t Hptr|t d t' Hptr _ IH]; intros fuel.
  - destruct fuel as [|fuel]; [done|]. rewrite defineObject_S.
    rewrite bool_decide_false by done.
    destruct (reflect.kind U t); try done; intros H;
      try (bind_inv H; by injection H as <-);
      bind_inv H; bind_inv H; by injection H as <-.
  - destruct fuel as [|fuel]; [done|]. rewrite defineObject_S.
    rewrite bool_decide_true, Elem_ptr, ret_bind by done. by apply IH.
Qed.

Lemma elem_of_propertiesOf d p :
  p ∈ propertiesOf d ↔ ∃ f, Object.Properties d !! f = Some p.
Proof.
  unfold propertiesOf. rewrite list_elem_of_fmap. split.
  - intros ([f p'] & -> & Hin). exists f. by apply elem_of_map_to_list.
  - intros (f & Hf). exists (f, p). split; [done|]. by apply elem_of_map_to_list.
Qed.

Lemma root_only_graph obj c :
  invariant U reg makeName makeRef obj c →
  Object.Properties obj = ∅ →
  objMap c = {[ Object.Name obj := obj ]}.
Proof.
  intros (_ & _ & I3 & I4) Hempty. apply map_eq. intros k.
  destruct (decide (k = Object.Name obj)) as [->|Hk].
  - by rewrite lookup_singleton_eq.
  - rewrite lookup_singleton_ne by done.
    destruct (objMap c !! k) as [o|] eqn:Ho; [|done].
    apply I3 in Ho as [Hreach _].
    by apply (Reach_root_only U reg makeName makeRef _ _ _ Hempty) in Hreach as [-> _].
Qed.
End GraphFacts.

(** X13: in a graph that the closure loop returns, the object of the root
    stands under its name, every entry stands under the name of its object,
    and every entry other than the root's is the object that the definer
    gives for a struct type whose derived name is the key: of kind object,
    without [Items] and [AdditionalProperties]. *)
Theorem graph_entries (U : reflect.Universe) (reg : types.Registry)
    (makeName : reflect.Type_ → string) (makeRef : string → string)
    (fuel : nat) (t : reflect.Type_) (g : Graph) :
  define_run U reg makeName makeRef fuel t g →
  ∃ obj,
    defineObject U reg makeName makeRef fuel t = Ok obj ∧
    g !! Object.Name obj = Some obj ∧
    ∀ k o, g !! k = Some o →
      Object.Name o = k ∧
      (o = obj ∨
       ∃ s fuel', reflect.kind U s = reflect.Struct ∧ k = makeName s ∧
                  defineObject U reg makeName makeRef fuel' s = Ok o ∧
                  Object.Type_ o = types.Object ∧
                  Object.Items o = None ∧ Object.AdditionalProperties o = None).
Proof.
  intros (obj & c & Hobj & Hinv & _ & <-)%define_run_invariant.
  exists obj. split; [done|]. destruct Hinv as (_ & _ & I3 & I4). split; [done|].
  intros k o [Hreach Hname]%I3. split; [done|].
  destruct Hreach as [|k d p q fuel' child _ _ _ Hk Hdef]; [by left|right].
  exists (Property.GoType q), fuel'.
  destruct (defineObject_of_struct U reg makeName makeRef _ _ _ Hk Hdef) as (_ & ? & ? & ?).
  by repeat split.
Qed.

Lemma graph_entries_witness :
  ∃ g obj,
    define nodeU types.ptMapping (nameByString nodeU) refTo inOrder 1 6 1 = Ok g ∧
    g !! Object.Name obj = Some obj.
Proof.
  destruct (define nodeU types.ptMapping (nameByString nodeU) refTo inOrder 1 6 1)
    as [g| |] eqn:H; [|by vm_compute in H..].
  destruct (graph_entries nodeU types.ptMapping (nameByString nodeU) refTo 6 1 g)
    as (obj & _ & Hroot & _).
  { exact (define_define_run _ _ _ _ _ _ _ _ _ fair_inOrder H). }
  exists g, obj. split; [reflexivity|exact Hroot].
Defined.

(** X14: for a root type that is not a struct behind its pointers (a slice,
    an array, a map, a scalar), every run of the closure loop returns the
    graph that holds the object of the root alone: the loop looks at the
    properties of the entries only, and such an object has none, so the record
    that a slice or map root is made of is not defined. *)
Theorem root_without_fields_stays_alone (U : reflect.Universe) (reg : types.Registry)
    (makeName : reflect.Type_ → string) (makeRef : string → string)
    (fuel : nat) (t : reflect.Type_) (d : nat) (t' : reflect.Type_) (g : Graph) :
  unwraps U t d t' →
  reflect.kind U t' ≠ reflect.Struct →
  define_run U reg makeName makeRef fuel t g →
  ∃ obj,
    defineObject U reg makeName makeRef fuel t = Ok obj ∧
    g = {[ Object.Name obj := obj ]}.
Proof.
  intros Hu Hk (obj & c & Hobj & Hinv & _ & <-)%define_run_invariant.
  exists obj. split; [done|]. apply (root_only_graph U reg makeName makeRef _ _ Hinv).
  by destruct (defineObject_not_struct U reg makeName makeRef _ _ _ _ _ Hu Hk Hobj).
Qed.

Lemma root_without_fields_stays_alone_witness :
  ∃ g obj,
    define nodeU types.ptMapping (nameByString nodeU) refTo inOrder 1 6 3 = Ok g ∧
    g = {[ "[]main.Node" := obj ]} ∧
    (Property.Ref <$> Object.Items obj) = Some (refTo "main.Node") ∧
    g !! "main.Node" = None.
Proof.
  destruct (define nodeU types.ptMapping (nameByString nodeU) refTo inOrder 1 6 3)
    as [g| |] eqn:H; [|by vm_compute in H..].
  destruct (root_without_fields_stays_alone nodeU types.ptMapping (nameByString nodeU)
              refTo 6 3 0 3 g) as (obj & Hobj & Hg).
  { apply unwraps_done. discriminate. }
  { discriminate. }
  { exact (define_define_run _ _ _ _ _ _ _ _ _ fair_inOrder H). }
  clear H. exists g, obj. split; [reflexivity|].
  vm_compute in Hobj. injection Hobj as <-. rewrite Hg. clear Hg.
  split; [reflexivity|]. split; [reflexivity|]. vm_compute. reflexivity.
Defined.
